(** * A fixed-capacity chained hash table over raw memory (src/main.cpp)

    Shallow embedding of [hashKey], [allocZeros] and [struct Hashtable]
    (constructor, destructor, [lookup], [insert], [erase]) together with
    the properties of the table that the specification states.

    Conventions of the embedding:
    - [uint64_t] is a [Z] in [0, 2^64); every arithmetic operation of the
      source is followed by its wrap-around ([wrap]).
    - [Entry *] is [option loc]: [None] is [nullptr].
    - The C++ heap ([new] / [delete]) is a finite map from locations to
      entries; the bucket array obtained from [mmap] is a list of
      pointers.
    - Undefined behaviour (dereferencing a pointer that is not live, an
      index outside the bucket array, deleting twice, [__builtin_clzl]
      at 0, an oversized shift) makes an operation return [None]. *)

From Stdlib Require Import ZArith Lia.
From stdpp Require Import base numbers option list gmap fin_maps fin_sets.

Local Open Scope Z_scope.

(** ** 64-bit unsigned arithmetic *)

Definition two64 : Z := 2 ^ 64.

Definition wrap (x : Z) : Z := x mod two64.

(** [a << n] on [uint64_t]; a shift count of 64 or more is undefined. *)
Definition shl64 (a n : Z) : option Z :=
  if decide (0 ≤ n < 64) then Some (wrap (Z.shiftl a n)) else None.

(** Leading zero bits among the bits [n-1 .. 0] of [x]. *)
Fixpoint clz_from (n : nat) (x : Z) : Z :=
  match n with
  | O => 0
  | S n' => if Z.testbit x (Z.of_nat n') then 0 else 1 + clz_from n' x
  end.

(** [__builtin_clzl] on a 64-bit [unsigned long]; undefined at 0. *)
Definition clzl (x : Z) : option Z :=
  if decide (0 < x < two64) then Some (clz_from 64 x) else None.

(** ** hashKey (src/main.cpp, lines 12-27) *)

Definition hashKey (k : Z) : Z :=
  let m := 0xc6a4a7935bd1e995 in
  let r := 47 in
  let h := Z.lxor 0x8445d61a4e774912 (wrap (8 * m)) in
  let k := wrap (k * m) in
  let k := Z.lxor k (Z.shiftr k r) in
  let k := wrap (k * m) in
  let h := Z.lxor h k in
  let h := wrap (h * m) in
  let h := Z.lxor h (Z.shiftr h r) in
  let h := wrap (h * m) in
  let h := Z.lxor h (Z.shiftr h r) in
  h.

(** ** Memory *)

Definition loc := positive.

(** [struct Entry] *)
Record Entry := mkEntry { key : Z; value : Z; next : option loc }.

(** The memory the table lives in:
    - [heap]: the entries allocated with [new] and not yet deleted;
    - [freed]: the log of the [delete] calls, most recent first;
    - [mapped]: the bytes of the bucket array's anonymous mapping that
      are still mapped (a multiple of the page size). *)
Record Memory := mkMemory {
  heap : gmap loc Entry;
  freed : list loc;
  mapped : Z
}.

Definition empty_memory : Memory := mkMemory ∅ [] 0.

(** The page size of the platform the source is written for (Linux on
    x86-64: [mmap], a 64-bit [unsigned long]). *)
Definition PAGE_SIZE : Z := 4096.

(** Bytes covered by the pages that contain a part of [0, len). *)
Definition page_round (len : Z) : Z := ((len + PAGE_SIZE - 1) / PAGE_SIZE) * PAGE_SIZE.

(** [allocZeros(size)] (lines 7-10): an anonymous zero-filled mapping of
    [size] bytes. [mmap] rejects a length of 0 (the result is then
    [MAP_FAILED], which the source never tests: no cell of the array is
    accessible). The result is the number of bytes mapped. For the other
    lengths this is the [mmap] of a machine that can map them; the real
    call may refuse any length, so what is stated of a table of
    arbitrary size takes [mapped <> 0] as a hypothesis. *)
Definition allocZeros (size : Z) : Z :=
  if decide (size = 0) then 0 else page_round size.

(** [munmap(addr, len)] at the start of the mapping: every page
    containing a part of [addr, addr + len) is unmapped. *)
Definition munmap (len : Z) (m : Memory) : Memory :=
  mkMemory (heap m) (freed m) (Z.max 0 (mapped m - page_round len)).

(** [delete p]: [p] must be live. *)
Definition delete_entry (p : loc) (m : Memory) : option Memory :=
  match heap m !! p with
  | Some _ => Some (mkMemory (delete p (heap m)) (p :: freed m) (mapped m))
  | None => None
  end.

(** [new Entry()]: a location that is not live, value-initialised. *)
Definition new_entry (m : Memory) : loc * Memory :=
  let p := fresh (dom (heap m)) in
  (p, mkMemory (<[p := mkEntry 0 0 None]> (heap m)) (freed m) (mapped m)).

Definition set_heap (h : gmap loc Entry) (m : Memory) : Memory :=
  mkMemory h (freed m) (mapped m).

(** ** struct Hashtable (lines 29-127) *)

Record Hashtable := mkHashtable {
  htSize : Z;
  mask : Z;
  ht : list (option loc)
}.

(** Hashtable(uint64_t size), lines 42-47. The cells of the bucket array
    are the 8-byte words of the mapping; they read as [nullptr]. *)
Definition Hashtable_new (size : Z) (m : Memory) : option (Hashtable * Memory) :=
  lz ← clzl size;
  sz ← shl64 1 (8 * 8 - lz);
  let bytes := wrap (8 * sz) in
  let got := allocZeros bytes in
  Some (mkHashtable sz (wrap (sz - 1))
                    (if decide (got = 0) then [] else replicate (Z.to_nat (bytes / 8)) None),
        mkMemory (heap m) (freed m) got).

(** [ht[i]] *)
Definition bucket (t : Hashtable) (i : Z) : option (option loc) :=
  if decide (0 ≤ i) then ht t !! Z.to_nat i else None.

(** [hashKey(key) & mask] *)
Definition slot (t : Hashtable) (k : Z) : Z := Z.land (hashKey k) (mask t).

(** The methods of [struct Hashtable]. A method takes the object and the
    memory and returns what it returns in the source, with the object and
    the memory it leaves. Each loop carries a bound on its iterations
    taken from the number of live entries: a chain that is not cyclic
    cannot be longer, and on a cyclic chain the source does not
    terminate, which is [None] here. *)
Module Table.

Definition state : Type := Hashtable * Memory.

(** The loop of [lookup], lines 67-70, started at [e]. *)
Fixpoint lookup_loop (fuel : nat) (h : gmap loc Entry) (e : option loc) (k : Z)
  : option (option loc) :=
  match e with
  | None => Some None
  | Some a =>
      match fuel with
      | O => None
      | S fuel' =>
          ent ← h !! a;
          if decide (key ent = k) then Some (Some a)
          else lookup_loop fuel' h (next ent) k
      end
  end.

(** Entry *lookup(uint64_t key), lines 65-71 *)
Definition lookup (t : Hashtable) (m : Memory) (k : Z) : option (option loc) :=
  e ← bucket t (slot t k);
  lookup_loop (size (heap m)) (heap m) e k.

(** [while (current->next) current = current->next;], lines 90-93 *)
Fixpoint last_loop (fuel : nat) (h : gmap loc Entry) (current : loc) : option loc :=
  match fuel with
  | O => None
  | S fuel' =>
      ent ← h !! current;
      match next ent with
      | None => Some current
      | Some n => last_loop fuel' h n
      end
  end.

(** bool insert(uint64_t key, uint64_t value), lines 73-100 *)
Definition insert (t : Hashtable) (m : Memory) (k v : Z) : option (bool * state) :=
  e ← lookup t m k;
  match e with
  | Some a =>
      ent ← heap m !! a;
      Some (false, (t, set_heap (<[a := mkEntry (key ent) v (next ent)]> (heap m)) m))
  | None =>
      let pos := slot t k in
      let '(newEntry, m1) := new_entry m in
      head ← bucket t pos;
      '(t2, m2) ← match head with
                  | None =>
                      Some (mkHashtable (htSize t) (mask t)
                                        (<[Z.to_nat pos := Some newEntry]> (ht t)), m1)
                  | Some current =>
                      current ← last_loop (size (heap m1)) (heap m1) current;
                      ent ← heap m1 !! current;
                      Some (t, set_heap (<[current := mkEntry (key ent) (value ent)
                                                              (Some newEntry)]> (heap m1)) m1)
                  end;
      ent ← heap m2 !! newEntry;
      let m3 := set_heap (<[newEntry := mkEntry k (value ent) (next ent)]> (heap m2)) m2 in
      ent ← heap m3 !! newEntry;
      Some (true, (t2, set_heap (<[newEntry := mkEntry (key ent) v (next ent)]> (heap m3)) m3))
  end.

(** The loop of [erase], lines 114-124, at [_current]. *)
Fixpoint erase_loop (fuel : nat) (m : Memory) (current : loc) (k : Z)
  : option (bool * Memory) :=
  match fuel with
  | O => None
  | S fuel' =>
      ent ← heap m !! current;
      match next ent with
      | None => Some (false, m)
      | Some n =>
          entn ← heap m !! n;
          if decide (key entn = k) then
            let _next := next entn in
            m1 ← delete_entry n m;
            ent ← heap m1 !! current;
            Some (true, set_heap (<[current := mkEntry (key ent) (value ent) _next]>
                                    (heap m1)) m1)
          else erase_loop fuel' m n k
      end
  end.

(** bool erase(uint64_t key), lines 102-126 *)
Definition erase (t : Hashtable) (m : Memory) (k : Z) : option (bool * state) :=
  let pos := slot t k in
  _current ← bucket t pos;
  match _current with
  | None => Some (false, (t, m))
  | Some a =>
      ent ← heap m !! a;
      if decide (key ent = k) then
        let t1 := mkHashtable (htSize t) (mask t) (<[Z.to_nat pos := next ent]> (ht t)) in
        m1 ← delete_entry a m;
        Some (true, (t1, m1))
      else
        '(b, m1) ← erase_loop (size (heap m)) m a k;
        Some (b, (t, m1))
  end.

(** The inner loop of the destructor, lines 54-59. *)
Fixpoint free_chain (fuel : nat) (_current : option loc) (m : Memory) : option Memory :=
  match _current with
  | None => Some m
  | Some a =>
      match fuel with
      | O => None
      | S fuel' =>
          ent ← heap m !! a;
          let _next := next ent in
          m1 ← delete_entry a m;
          free_chain fuel' _next m1
      end
  end.

(** The outer loop of the destructor, lines 51-60: [n] iterations are
    left and the index is [i]. *)
Fixpoint free_buckets (n : nat) (t : Hashtable) (i : Z) (m : Memory) : option Memory :=
  match n with
  | O => Some m
  | S n' =>
      _current ← bucket t i;
      m1 ← free_chain (size (heap m)) _current m;
      free_buckets n' t (wrap (i + 1)) m1
  end.

(** ~Hashtable(), lines 49-63. The bucket array was mapped with
    [sizeof(uint64_t) * htSize] bytes; it is unmapped with [htSize]. *)
Definition destroy (t : Hashtable) (m : Memory) : option Memory :=
  m1 ← free_buckets (Z.to_nat (htSize t)) t 0 m;
  Some (munmap (htSize t) m1).

End Table.

Import Table.

(** ** Sequences of calls *)

Inductive call : Type :=
  | CInsert (k v : Z)
  | CErase (k : Z)
  | CLookup (k : Z).

(** One call on a table; what the call returns is dropped. *)
Definition step (c : call) (s : state) : option state :=
  match c with
  | CInsert k v => snd <$> insert s.1 s.2 k v
  | CErase k => snd <$> erase s.1 s.2 k
  | CLookup k => _ ← lookup s.1 s.2 k; Some s
  end.

Fixpoint run (cs : list call) (s : state) : option state :=
  match cs with
  | [] => Some s
  | c :: cs' => s' ← step c s; run cs' s'
  end.

(** The states a client can reach: a table constructed in a memory with
    no live entry, whose bucket array was mapped, then any calls of
    [insert] and [erase]. *)
Inductive reachable : state → Prop :=
  | reach_new size s :
      1 ≤ size < 2 ^ 63 →
      Hashtable_new size empty_memory = Some s →
      mapped s.2 ≠ 0 →
      reachable s
  | reach_insert s k v b s' :
      reachable s → insert s.1 s.2 k v = Some (b, s') → reachable s'
  | reach_erase s k b s' :
      reachable s → erase s.1 s.2 k = Some (b, s') → reachable s'.

(** The table [Hashtable h(size)] of the tests, and the state after the
    calls [cs] on it. *)
Definition sample_new (size : Z) : state :=
  default (mkHashtable 0 0 [], empty_memory) (Hashtable_new size empty_memory).

Definition sample_run (size : Z) (cs : list call) : state :=
  default (sample_new size) (run cs (sample_new size)).

(** A call after which [lookup k] still has to yield [v]: anything but
    erasing [k] or inserting [k] with another value. *)
Definition keeps (k v : Z) (c : call) : Prop :=
  match c with
  | CInsert k' v' => k' = k → v' = v
  | CErase k' => k' ≠ k
  | CLookup _ => True
  end.

(** ** Vocabulary of the specification *)

Definition is_pow2 (c : Z) : Prop := ∃ n, 0 ≤ n ∧ c = 2 ^ n.

(** [c] is the smallest power of two that is at least [s]. *)
Definition smallest_pow2_ge (s c : Z) : Prop :=
  is_pow2 c ∧ s ≤ c ∧ ∀ c', is_pow2 c' → s ≤ c' → c ≤ c'.

(** [c] is the smallest power of two strictly above [s]. *)
Definition smallest_pow2_gt (s c : Z) : Prop :=
  is_pow2 c ∧ s < c ∧ ∀ c', is_pow2 c' → s < c' → c ≤ c'.

(** Node [a] is a live entry with key [k]. *)
Definition live_key (m : Memory) (k : Z) (a : loc) : Prop :=
  ∃ e, heap m !! a = Some e ∧ key e = k.

Definition present (m : Memory) (k : Z) : Prop := ∃ a, live_key m k a.

(** At most one live entry per key. *)
Definition unique_keys (m : Memory) : Prop :=
  ∀ a b ea eb,
    heap m !! a = Some ea → heap m !! b = Some eb → key ea = key eb → a = b.

(** The key and the value stored in each live entry. *)
Definition contents (m : Memory) : gmap loc (Z * Z) :=
  (λ e, (key e, value e)) <$> heap m.

(** The value [lookup] hands back through the entry it returns. *)
Definition lookup_value (t : Hashtable) (m : Memory) (k : Z) : option (option Z) :=
  r ← lookup t m k;
  match r with
  | None => Some None
  | Some a => ent ← heap m !! a; Some (Some (value ent))
  end.

(** The nodes met from [p] along [next], up to [nullptr]. *)
Fixpoint walk (fuel : nat) (h : gmap loc Entry) (p : option loc) : option (list loc) :=
  match p with
  | None => Some []
  | Some a =>
      match fuel with
      | O => None
      | S fuel' => ent ← h !! a; l ← walk fuel' h (next ent); Some (a :: l)
      end
  end.

(** The chain of bucket [i], head first. *)
Definition chain_of (t : Hashtable) (m : Memory) (i : Z) : option (list loc) :=
  p ← bucket t i; walk (size (heap m)) (heap m) p.

(** The keys along the chain of bucket [i], head first. *)
Definition chain_keys (t : Hashtable) (m : Memory) (i : Z) : option (list Z) :=
  l ← chain_of t m i; mapM (λ a, key <$> heap m !! a) l.

(** The keys a sequence of calls leaves in the table, in the order of
    the insertions that made them new: inserting a key that is there
    changes nothing, erasing a key forgets it. *)
Definition order_step (ks : list Z) (c : call) : list Z :=
  match c with
  | CInsert k _ => if decide (k ∈ ks) then ks else ks ++ [k]
  | CErase k => filter (λ k', k' ≠ k) ks
  | CLookup _ => ks
  end.

Definition insertion_order (cs : list call) : list Z := foldl order_step [] cs.

(** [seg h p l q]: from [p], following [next] through the live nodes [l]
    leads to [q]. *)
Fixpoint seg (h : gmap loc Entry) (p : option loc) (l : list loc) (q : option loc) : Prop :=
  match l with
  | [] => p = q
  | a :: l' => p = Some a ∧ ∃ e, h !! a = Some e ∧ seg h (next e) l' q
  end.

(** Bucket [i], whose head is [p], chains exactly the live entries whose
    key selects bucket [i], each once. *)
Definition bucket_ok (t : Hashtable) (h : gmap loc Entry) (i : nat) (p : option loc) : Prop :=
  ∃ l, seg h p l None ∧ NoDup l ∧
       ∀ a, a ∈ l ↔ ∃ e, h !! a = Some e ∧ slot t (key e) = Z.of_nat i.

(** Between [m] and [m'], every entry whose key selects another bucket
    than [i] is untouched, and no such entry appears or disappears. *)
Definition confined (t : Hashtable) (m m' : Memory) (i : nat) : Prop :=
  ∀ b e, heap m !! b = Some e ∨ heap m' !! b = Some e →
         slot t (key e) ≠ Z.of_nat i → heap m' !! b = heap m !! b.

(** The representation invariant of a table whose bucket array was
    allocated. *)
Record wf (t : Hashtable) (m : Memory) : Prop := mk_wf {
  wf_size : ∃ n, 0 ≤ n < 64 ∧ htSize t = 2 ^ n;
  wf_mask : mask t = htSize t - 1;
  wf_len : length (ht t) = Z.to_nat (htSize t);
  wf_buckets : ∀ i p, ht t !! i = Some p → bucket_ok t (heap m) i p;
  wf_keys : unique_keys m
}.

(** Bucket by bucket, the keys along the chain are the keys of [ks]
    that select the bucket, in the order of [ks]. *)
Definition ordered_as (t : Hashtable) (m : Memory) (ks : list Z) : Prop :=
  wf t m ∧ NoDup ks ∧
  ∀ i l, chain_of t m i = Some l →
         Forall2 (λ a k, live_key m k a) l (filter (λ k, slot t k = i) ks).

(** ** The table as a finite map, and the test driver *)

(** The finite map a memory stands for: each live entry binds its key to
    its value. *)
Definition model (m : Memory) : gmap Z Z :=
  list_to_map ((map_to_list (contents m)).*2).

(** A call replayed on a finite map. *)
Definition model_step (M : gmap Z Z) (c : call) : gmap Z Z :=
  match c with
  | CInsert k v => <[k := v]> M
  | CErase k => delete k M
  | CLookup _ => M
  end.

(** The inverse of the multiplier of [hashKey] modulo [2^64]. *)
Definition murmur_m_inv : Z := 0x5f7a0ea7e59b19bd.

(** Modelled from the spec: [Ensure] of debug.hpp, which is not under
    src/: the self-check "aborts on first violated invariant". A test
    computation yields [None] on undefined behaviour and otherwise a
    flag and a state; the flag is false when an [Ensure] failed, and
    nothing runs after that. *)
Definition Ensure {A : Type} (c : bool) (a : A) : option (bool * A) := Some (c, a).

(** [for (uint64_t i = i0; i < bound; i += step) body(i)], stopped by the
    first failed [Ensure]. *)
Fixpoint for_loop (fuel : nat) (i bound step : Z) (body : Z → state → option (bool * state))
    (s : state) : option (bool * state) :=
  if decide (i < bound) then
    match fuel with
    | O => None
    | S fuel' =>
        match body i s with
        | Some (true, s') => for_loop fuel' (wrap (i + step)) bound step body s'
        | Some (false, s') => Some (false, s')
        | None => None
        end
    end
  else Some (true, s).

(** [Ensure(h.insert(i, v))] and [Ensure(!h.insert(i, v))] *)
Definition ensure_insert (expect : bool) (v : Z → Z) (i : Z) (s : state) : option (bool * state) :=
  '(b, s') ← insert s.1 s.2 i (v i); Ensure (bool_decide (b = expect)) s'.

(** [Ensure(h.erase(i))] and [Ensure(!h.erase(i))] *)
Definition ensure_erase (expect : Z → bool) (i : Z) (s : state) : option (bool * state) :=
  '(b, s') ← erase s.1 s.2 i; Ensure (bool_decide (b = expect i)) s'.

(** [e = h.lookup(i)], then [Ensure(!e)] where [absent i], and
    [Ensure(e); Ensure(e->value == i)] elsewhere. *)
Definition ensure_lookup (absent : Z → bool) (i : Z) (s : state) : option (bool * state) :=
  e ← lookup s.1 s.2 i;
  if absent i then Ensure (bool_decide (e = None)) s
  else match e with
       | None => Ensure false s
       | Some a => ent ← heap s.2 !! a; Ensure (bool_decide (value ent = i)) s
       end.

Definition is_mod3 (i : Z) : bool := bool_decide (i mod 3 = 0).

(** The body of the loop of [general_test], lines 133-194, for one
    [size], from the construction of [h] to its destruction at the end of
    the block; an abort leaves the memory as it is. *)
Definition general_test_size (size : Z) (m : Memory) : option (bool * Memory) :=
  s ← Hashtable_new size m;
  let n := Z.to_nat size in
  let half := size / 2 in
  let loop step bound body s := for_loop n 0 bound step body s in
  let phases : list (state → option (bool * state)) :=
    [ loop 1 size (ensure_insert true (λ _, 42));
      loop 1 size (ensure_insert false (λ i, i));
      loop 1 size (ensure_lookup (λ _, false));
      loop 3 half (ensure_erase (λ _, true));
      loop 3 half (ensure_erase (λ _, false));
      loop 1 half (ensure_lookup is_mod3);
      loop 1 half (ensure_erase (λ i, negb (is_mod3 i)));
      loop 1 half (ensure_lookup (λ _, true)) ] in
  match foldl (λ (r : option (bool * state)) phase,
                 match r with
                 | Some (true, s1) => phase s1
                 | _ => r
                 end)
              (Some (true, s)) phases with
  | Some (true, s') => m' ← destroy s'.1 s'.2; Some (true, m')
  | Some (false, s') => Some (false, s'.2)
  | None => None
  end.

(** void general_test(), lines 129-195 *)
Definition general_test (m : Memory) : option (bool * Memory) :=
  foldl (λ (r : option (bool * Memory)) size,
           match r with
           | Some (true, m1) => general_test_size size m1
           | _ => r
           end)
        (Some (true, m)) [10; 99; 837; 48329; 384933].

(** int main(), lines 212-216: the exit status, when the process ends by
    returning from [main]. *)
Definition exit_status (r : option (bool * Memory)) : option Z :=
  match r with
  | Some (true, _) => Some 0
  | _ => None
  end.

Definition main : option Z := exit_status (general_test empty_memory).

(** What the loops of [general_test] keep: the invariant of the table,
    its capacity [h0], the bindings [f] the table stands for, and the
    number [c] of entries that are live or were released. *)
Definition stands_for (h0 : Z) (c : nat) (f : Z → option Z) (s : state) : Prop :=
  wf s.1 s.2 ∧ htSize s.1 = h0 ∧ (∀ k, model s.2 !! k = f k) ∧
  (size (model s.2) + length (freed s.2))%nat = c.

(** * Properties *)

(** ** The constructor's arithmetic *)

Lemma clz_from_log2 (n : nat) (x : Z) :
  0 < x < 2 ^ Z.of_nat n → clz_from n x = Z.of_nat n - 1 - Z.log2 x.
Proof.
  induction n as [|n IH]; intros Hx.
  - simpl in Hx. lia.
  - cbn [clz_from].
    destruct (Z_lt_le_dec x (2 ^ Z.of_nat n)) as [Hlt|Hge].
    + rewrite Z.bits_above_log2; [|lia|].
      * rewrite IH by lia. lia.
      * apply Z.log2_lt_pow2; lia.
    + assert (Z.log2 x = Z.of_nat n) as Hl.
      { apply Z.log2_unique; [lia|].
        replace (Z.succ (Z.of_nat n)) with (Z.of_nat (S n)) by lia. lia. }
      rewrite <- Hl at 1. rewrite Z.bit_log2 by lia. lia.
Qed.

Lemma clzl_log2 (x : Z) : 0 < x < two64 → clzl x = Some (63 - Z.log2 x).
Proof.
  intros Hx. unfold clzl. rewrite decide_True by done.
  f_equal. rewrite (clz_from_log2 64 x); [lia|]. exact Hx.
Qed.

Lemma log2_bound (s : Z) : 1 ≤ s < 2 ^ 63 → 0 ≤ Z.log2 s < 63.
Proof.
  intros Hs. split; [apply Z.log2_nonneg|]. apply Z.log2_lt_pow2; lia.
Qed.

Lemma pow2_lt_two64 (n : Z) : 0 ≤ n < 64 → 0 < 2 ^ n < two64.
Proof.
  intros Hn. split; [apply Z.pow_pos_nonneg; lia|].
  unfold two64. apply Z.pow_lt_mono_r; lia.
Qed.

Lemma shl64_one (n : Z) : 0 ≤ n < 64 → shl64 1 n = Some (2 ^ n).
Proof.
  intros Hn. unfold shl64. rewrite decide_True by done.
  rewrite Z.shiftl_1_l. unfold wrap. rewrite Z.mod_small; [done|].
  pose proof (pow2_lt_two64 n Hn). lia.
Qed.

(** ** Chains in the heap *)

Lemma seg_ext h h' p l q :
  (∀ a, a ∈ l → next <$> h' !! a = next <$> h !! a) →
  seg h p l q → seg h' p l q.
Proof.
  revert p. induction l as [|a l IH]; intros p Hext; cbn; [done|].
  intros [-> (e & He & Hseg)]. split; [done|].
  pose proof (Hext a (list_elem_of_here _ _)) as Ha. rewrite He in Ha.
  destruct (h' !! a) as [e'|]; [|done]. injection Ha as Ha.
  exists e'. split; [done|]. rewrite Ha. apply IH; [|done].
  intros b Hb. apply Hext. by apply list_elem_of_further.
Qed.

Lemma seg_app h p l1 l2 q :
  seg h p (l1 ++ l2) q ↔ ∃ r, seg h p l1 r ∧ seg h r l2 q.
Proof.
  revert p. induction l1 as [|a l1 IH]; intros p; cbn.
  - split; [intros H; by exists p|]. by intros (r & -> & H).
  - split.
    + intros [-> (e & He & H)]. apply IH in H as (r & H1 & H2). exists r. eauto 10.
    + intros (r & [-> (e & He & H1)] & H2). split; [done|]. exists e. split; [done|].
      apply IH. eauto.
Qed.

Lemma seg_nil_inv h l : seg h None l None → l = [].
Proof. destruct l; [done|]. by intros [? _]. Qed.

Lemma seg_det h p l1 l2 : seg h p l1 None → seg h p l2 None → l1 = l2.
Proof.
  revert p l2. induction l1 as [|a l1 IH]; intros p l2; cbn.
  - intros ->. intros H. by apply seg_nil_inv in H.
  - intros [-> (e & He & H1)]. destruct l2 as [|b l2]; [done|]. cbn.
    intros [[= <-] (e' & He' & H2)]. rewrite He in He'. injection He' as <-.
    f_equal. eauto.
Qed.

Lemma seg_live h p l q a : seg h p l q → a ∈ l → is_Some (h !! a).
Proof.
  revert p. induction l as [|b l IH]; intros p; cbn; [by intros _ ?%elem_of_nil|].
  intros [-> (e & He & H)] [->|Hin]%elem_of_cons; eauto.
Qed.

Lemma live_length (h : gmap loc Entry) (l : list loc) :
  NoDup l → (∀ a, a ∈ l → is_Some (h !! a)) → (length l ≤ size h)%nat.
Proof.
  intros Hnd Hl. rewrite <- (size_dom (D := gset loc) h).
  unfold size at 1, set_size. cbn. apply submseteq_length, NoDup_submseteq; [done|].
  intros a Ha. apply elem_of_elements, elem_of_dom. auto.
Qed.

Lemma seg_walk h l : ∀ p fuel,
  seg h p l None → (length l ≤ fuel)%nat → walk fuel h p = Some l.
Proof.
  induction l as [|a l IH]; intros p fuel; cbn.
  - intros -> _. by destruct fuel.
  - intros [-> (e & He & H)] Hf. destruct fuel as [|fuel]; [lia|]. cbn.
    rewrite He. cbn. rewrite (IH _ fuel) by (done || lia). done.
Qed.

Lemma walk_seg fuel h : ∀ p l, walk fuel h p = Some l → seg h p l None.
Proof.
  induction fuel as [|fuel IH]; intros [a|] l; cbn; try done.
  - intros [= <-]. done.
  - destruct (h !! a) as [e|] eqn:He; [|done]. cbn.
    destruct (walk fuel h (next e)) as [l'|] eqn:Hw; [|done]. cbn.
    intros [= <-]. cbn. split; [done|]. eauto.
  - intros [= <-]. done.
Qed.

Lemma lookup_loop_seg h k l : ∀ p fuel,
  seg h p l None → (length l ≤ fuel)%nat →
  ∃ r, lookup_loop fuel h p k = Some r ∧
       match r with
       | Some a => a ∈ l ∧ ∃ e, h !! a = Some e ∧ key e = k
       | None => ∀ a e, a ∈ l → h !! a = Some e → key e ≠ k
       end.
Proof.
  induction l as [|a l IH]; intros p fuel; cbn.
  - intros -> _. exists None. split; [by destruct fuel|]. by intros a e ?%elem_of_nil.
  - intros [-> (e & He & H)] Hf. destruct fuel as [|fuel]; [lia|]. cbn.
    rewrite He. cbn. destruct (decide (key e = k)) as [Hk|Hk].
    + exists (Some a). split; [done|]. split; [apply list_elem_of_here|eauto].
    + destruct (IH _ fuel H) as (r & Hr & Hspec); [lia|].
      exists r. split; [done|]. destruct r as [b|].
      * destruct Hspec as [Hb ?]. split; [by apply list_elem_of_further|done].
      * intros b eb [->|Hb]%elem_of_cons Heb; [congruence|eauto].
Qed.

Lemma last_loop_seg h l : ∀ c fuel,
  seg h (Some c) l None → (length l ≤ fuel)%nat →
  ∃ l0 z ez, l = l0 ++ [z] ∧ last_loop fuel h c = Some z ∧
             h !! z = Some ez ∧ next ez = None ∧ seg h (Some c) l0 (Some z).
Proof.
  induction l as [|a l IH]; intros c fuel; cbn; [done|].
  intros [[= <-] (e & He & H)] Hf. destruct fuel as [|fuel]; [lia|]. cbn.
  rewrite He. cbn. destruct (next e) as [n|] eqn:Hn.
  - destruct (IH n fuel H) as (l0 & z & ez & -> & Hl & Hz & Hnz & Hs); [lia|].
    exists (c :: l0), z, ez. split_and!; try done. cbn. split; [done|].
    exists e. rewrite Hn. done.
  - apply seg_nil_inv in H as ->. exists [], c, e. done.
Qed.

(** ** Bucket selection *)

Lemma slot_range (t : Hashtable) (k : Z) :
  (∃ n, 0 ≤ n < 64 ∧ htSize t = 2 ^ n) → mask t = htSize t - 1 →
  0 ≤ slot t k < htSize t.
Proof.
  intros (n & Hn & Hsz) Hm. unfold slot. rewrite Hm, Hsz.
  replace (2 ^ n - 1) with (Z.ones n) by (rewrite Z.ones_equiv; lia).
  rewrite Z.land_ones by lia. apply Z.mod_pos_bound, Z.pow_pos_nonneg; lia.
Qed.

Lemma slot_same_mask (t t' : Hashtable) (k : Z) : mask t' = mask t → slot t' k = slot t k.
Proof. unfold slot. by intros ->. Qed.

Lemma wf_slot t m k : wf t m → 0 ≤ slot t k < htSize t.
Proof. intros [? ? _ _ _]. by apply slot_range. Qed.

Lemma wf_bucket t m k :
  wf t m →
  ∃ p, bucket t (slot t k) = Some p ∧ ht t !! Z.to_nat (slot t k) = Some p ∧
       bucket_ok t (heap m) (Z.to_nat (slot t k)) p.
Proof.
  intros Hwf. pose proof (wf_slot t m k Hwf) as Hr.
  destruct (lookup_lt_is_Some_2 (ht t) (Z.to_nat (slot t k))) as [p Hp].
  { rewrite (wf_len _ _ Hwf). lia. }
  exists p. unfold bucket. rewrite decide_True by lia.
  split_and!; [done..|]. by apply (wf_buckets _ _ Hwf).
Qed.

Lemma bucket_ok_length t h i p l :
  seg h p l None → NoDup l →
  (∀ a, a ∈ l ↔ ∃ e, h !! a = Some e ∧ slot t (key e) = Z.of_nat i) →
  (length l ≤ size h)%nat.
Proof.
  intros Hs Hnd Hl. apply live_length; [done|].
  intros a [e [He _]]%Hl. eauto.
Qed.

(** ** Keys and values of the live entries *)

Lemma contents_Some m a k v :
  contents m !! a = Some (k, v) ↔ ∃ e, heap m !! a = Some e ∧ key e = k ∧ value e = v.
Proof.
  unfold contents. rewrite lookup_fmap. destruct (heap m !! a) as [e|]; cbn.
  - split; [intros [= <- <-]; eauto|]. by intros (e' & [= <-] & <- & <-).
  - split; [done|]. by intros (e' & ? & _).
Qed.

Lemma contents_None m a : contents m !! a = None ↔ heap m !! a = None.
Proof. unfold contents. rewrite lookup_fmap. by destruct (heap m !! a). Qed.

Lemma contents_key m a e :
  heap m !! a = Some e → contents m !! a = Some (key e, value e).
Proof. intros H. apply contents_Some. eauto. Qed.

Lemma contents_set_heap_insert m a e :
  contents (set_heap (<[a := e]> (heap m)) m) = <[a := (key e, value e)]> (contents m).
Proof. unfold contents. cbn. by rewrite fmap_insert. Qed.

Lemma size_contents m : size (contents m) = size (heap m).
Proof. unfold contents. apply map_size_fmap. Qed.

Lemma live_key_contents m k a : live_key m k a ↔ ∃ v, contents m !! a = Some (k, v).
Proof.
  unfold live_key. split.
  - intros (e & He & <-). exists (value e). by apply contents_key.
  - intros (v & (e & He & Hk & _)%contents_Some). eauto.
Qed.

Lemma unique_keys_contents m :
  unique_keys m ↔
  ∀ a b k va vb, contents m !! a = Some (k, va) → contents m !! b = Some (k, vb) → a = b.
Proof.
  split.
  - intros Hu a b k va vb (ea & Ha & Hka & _)%contents_Some (eb & Hb & Hkb & _)%contents_Some.
    apply (Hu a b ea eb); congruence.
  - intros Hu a b ea eb Ha Hb Hk.
    apply (Hu a b (key ea) (value ea) (value eb)); [by apply contents_key|].
    rewrite Hk. by apply contents_key.
Qed.

Lemma unique_keys_insert m m' a k v :
  unique_keys m → contents m' = <[a := (k, v)]> (contents m) →
  (∀ b, live_key m k b → b = a) → unique_keys m'.
Proof.
  rewrite !unique_keys_contents. intros Hu -> Hk b c k' vb vc.
  rewrite !lookup_insert. repeat case_decide; subst.
  - done.
  - intros [= <- <-] Hc. symmetry. apply Hk, live_key_contents. eauto.
  - intros Hb [= <- <-]. apply Hk, live_key_contents. eauto.
  - apply Hu.
Qed.

Lemma unique_keys_delete m m' x :
  unique_keys m → contents m' = delete x (contents m) → unique_keys m'.
Proof.
  rewrite !unique_keys_contents. intros Hu -> b c k' vb vc.
  rewrite !lookup_delete. repeat case_decide; try done. apply Hu.
Qed.

Lemma live_key_unique m k a b : unique_keys m → live_key m k a → live_key m k b → a = b.
Proof. intros Hu (ea & Ha & Hka) (eb & Hb & Hkb). apply (Hu a b ea eb); congruence. Qed.

(** ** Preserving the invariant *)

(** The chain of a bucket other than [i] survives a change confined to
    bucket [i]. *)
Lemma seg_frame t m m' (i j : nat) p l :
  wf t m → confined t m m' i → j ≠ i →
  ht t !! j = Some p → seg (heap m) p l None → seg (heap m') p l None.
Proof.
  intros Hwf Hother Hne Hj Hs.
  destruct (wf_buckets _ _ Hwf j p Hj) as (l' & Hs' & _ & Hl).
  rewrite (seg_det _ _ _ _ Hs Hs'). eapply seg_ext; [|done].
  intros a [e [He Hsl]]%Hl. f_equal. apply (Hother a e); [by left|lia].
Qed.

(** A call that changes bucket [i] only: the other buckets keep their
    entries, and bucket [i] is shown well formed on its own. *)
Lemma wf_frame t m t' m' (i : nat) :
  wf t m →
  htSize t' = htSize t → mask t' = mask t → length (ht t') = length (ht t) →
  (∀ j, j ≠ i → ht t' !! j = ht t !! j) →
  confined t m m' i →
  (∀ p, ht t' !! i = Some p → bucket_ok t (heap m') i p) →
  unique_keys m' →
  wf t' m'.
Proof.
  intros Hwf Hsz Hm Hlen Hht Hother Hi Hu.
  assert (∀ j p, bucket_ok t (heap m') j p → bucket_ok t' (heap m') j p) as Hok.
  { intros j p (l & ? & ? & Hl). exists l. split_and!; [done..|].
    intros a. rewrite Hl. by setoid_rewrite (slot_same_mask t t' _ Hm). }
  split.
  - rewrite Hsz. apply (wf_size _ _ Hwf).
  - rewrite Hm, Hsz. apply (wf_mask _ _ Hwf).
  - rewrite Hlen, Hsz. apply (wf_len _ _ Hwf).
  - intros j p Hj. apply Hok. destruct (decide (j = i)) as [->|Hne]; [by apply Hi|].
    rewrite Hht in Hj by done.
    destruct (wf_buckets _ _ Hwf j p Hj) as (l & Hs & Hnd & Hl).
    assert (∀ a, a ∈ l → heap m' !! a = heap m !! a) as Hsame.
    { intros a [e [He Hsl]]%Hl. apply (Hother a e); [by left|lia]. }
    exists l. split_and!; [|done|].
    + by eapply seg_frame.
    + intros a. split.
      * intros Ha. rewrite (Hsame a Ha). by apply Hl.
      * intros (e & He & Hsl). apply Hl. exists e. split; [|done].
        rewrite <- He. symmetry. apply (Hother a e); [by right|lia].
  - done.
Qed.

(** Overwriting values leaves every chain as it is. *)
Lemma wf_same_shape t m m' :
  wf t m →
  (∀ b, (λ e, (key e, next e)) <$> heap m' !! b = (λ e, (key e, next e)) <$> heap m !! b) →
  wf t m'.
Proof.
  intros Hwf Hsh.
  assert (∀ b e', heap m' !! b = Some e' →
                  ∃ e, heap m !! b = Some e ∧ key e = key e' ∧ next e = next e') as H1.
  { intros b e' Hb. specialize (Hsh b). rewrite Hb in Hsh.
    destruct (heap m !! b) as [e|]; [|done]. injection Hsh as ? ?. eauto. }
  assert (∀ b e, heap m !! b = Some e →
                 ∃ e', heap m' !! b = Some e' ∧ key e' = key e ∧ next e' = next e) as H2.
  { intros b e Hb. specialize (Hsh b). rewrite Hb in Hsh.
    destruct (heap m' !! b) as [e'|]; [|done]. injection Hsh as ? ?. eauto. }
  split; [apply Hwf..| |].
  - intros j p Hj. destruct (wf_buckets _ _ Hwf j p Hj) as (l & Hs & Hnd & Hl).
    exists l. split_and!; [|done|].
    + eapply seg_ext; [|done]. intros a _. specialize (Hsh a).
      destruct (heap m' !! a), (heap m !! a); try done. cbn in *. congruence.
    + intros a. rewrite Hl. split.
      * intros (e & (e' & ? & Hk & _)%H2 & ?). exists e'. by rewrite Hk.
      * intros (e' & (e & ? & Hk & _)%H1 & ?). exists e. by rewrite Hk.
  - intros a b ea eb (ea0 & ? & Hka & _)%H1 (eb0 & ? & Hkb & _)%H1 Hk.
    eapply (wf_keys _ _ Hwf); [done..|]. congruence.
Qed.

(** ** lookup *)

Lemma lookup_total t m k :
  wf t m →
  ∃ r, lookup t m k = Some r ∧
       match r with
       | Some a => live_key m k a
       | None => ¬ present m k
       end.
Proof.
  intros Hwf. destruct (wf_bucket t m k Hwf) as (p & Hb & _ & l & Hs & Hnd & Hl).
  unfold lookup. rewrite Hb. cbn.
  destruct (lookup_loop_seg (heap m) k l p (size (heap m)) Hs) as (r & Hr & Hspec).
  { by eapply bucket_ok_length. }
  exists r. split; [done|]. destruct r as [a|].
  - by destruct Hspec as [_ ?].
  - intros (a & e & He & Hk). apply (Hspec a e); [|done..].
    apply Hl. exists e. split; [done|]. rewrite Hk.
    pose proof (wf_slot t m k Hwf). lia.
Qed.

Lemma lookup_Some t m k a : wf t m → lookup t m k = Some (Some a) ↔ live_key m k a.
Proof.
  intros Hwf. destruct (lookup_total t m k Hwf) as (r & Hr & Hspec). rewrite Hr. split.
  - intros [= ->]. done.
  - intros Ha. destruct r as [b|].
    + do 2 f_equal. by apply (live_key_unique m k); [apply Hwf|..].
    + destruct Hspec. by exists a.
Qed.

Lemma lookup_None t m k : wf t m → lookup t m k = Some None ↔ ¬ present m k.
Proof.
  intros Hwf. destruct (lookup_total t m k Hwf) as (r & Hr & Hspec). rewrite Hr. split.
  - intros [= ->]. done.
  - intros Hn. destruct r as [b|]; [|done]. destruct Hn. by exists b.
Qed.

(** ** insert *)

Lemma bind_Some {A B : Type} (x : A) (f : A → option B) : Some x ≫= f = f x.
Proof. reflexivity. Qed.

Lemma in_bucket_contents t m (i : Z) b :
  (∃ e, heap m !! b = Some e ∧ slot t (key e) = i) ↔
  (∃ k v, contents m !! b = Some (k, v) ∧ slot t k = i).
Proof.
  split.
  - intros (e & He & Hs). exists (key e), (value e). split; [by apply contents_key|done].
  - intros (k & v & (e & He & <- & _)%contents_Some & Hs). eauto.
Qed.

Lemma fresh_not_live (m : Memory) : heap m !! fresh (dom (heap m)) = None.
Proof. apply not_elem_of_dom, is_fresh. Qed.

(** Inserting a key that is present overwrites the value in its entry. *)
Lemma insert_present t m k v a :
  wf t m → live_key m k a →
  ∃ e, heap m !! a = Some e ∧ key e = k ∧
       insert t m k v =
         Some (false, (t, set_heap (<[a := mkEntry k v (next e)]> (heap m)) m)).
Proof.
  intros Hwf Ha. pose proof Ha as (e & He & Hk). exists e. split_and!; [done..|].
  unfold insert. apply (lookup_Some t m k a Hwf) in Ha. rewrite Ha. cbn.
  rewrite He. cbn. by rewrite Hk.
Qed.

Lemma wf_set_value t m a e v :
  wf t m → heap m !! a = Some e →
  wf t (set_heap (<[a := mkEntry (key e) v (next e)]> (heap m)) m).
Proof.
  intros Hwf He. apply (wf_same_shape t m); [done|]. intros b. cbn.
  rewrite lookup_insert. case_decide; [subst; by rewrite He|done].
Qed.

(** Inserting a key that is absent links one new entry at the tail of
    the key's bucket. *)
Lemma insert_absent t m k v :
  wf t m → ¬ present m k →
  let i := Z.to_nat (slot t k) in
  let a := fresh (dom (heap m)) in
  ∃ t' m' p l p',
    insert t m k v = Some (true, (t', m')) ∧
    heap m' !! a = Some (mkEntry k v None) ∧
    contents m' = <[a := (k, v)]> (contents m) ∧
    freed m' = freed m ∧ mapped m' = mapped m ∧
    htSize t' = htSize t ∧ mask t' = mask t ∧ length (ht t') = length (ht t) ∧
    (∀ j, j ≠ i → ht t' !! j = ht t !! j) ∧
    confined t m m' i ∧
    ht t !! i = Some p ∧ seg (heap m) p l None ∧
    ht t' !! i = Some p' ∧ seg (heap m') p' (l ++ [a]) None ∧
    wf t' m'.
Proof.
  intros Hwf Habs i a.
  pose proof (fresh_not_live m) as Hfresh. fold a in Hfresh.
  pose proof (wf_slot t m k Hwf) as Hrange.
  destruct (wf_bucket t m k Hwf) as (p & Hb & Hht & l & Hs & Hnd & Hl). fold i in Hht, Hl.
  assert (a ∉ l) as Hal.
  { intros (e & He & _)%Hl. congruence. }
  assert (∀ t' m' p',
    contents m' = <[a := (k, v)]> (contents m) →
    htSize t' = htSize t → mask t' = mask t → length (ht t') = length (ht t) →
    (∀ j, j ≠ i → ht t' !! j = ht t !! j) →
    confined t m m' i →
    ht t' !! i = Some p' → seg (heap m') p' (l ++ [a]) None →
    wf t' m') as Hwf'.
  { intros t' m' p' Hc Hsz Hm Hlen Hoth Hconf Hp' Hs'.
    apply (wf_frame t m t' m' i); try done.
    - intros q Hq. rewrite Hp' in Hq. injection Hq as <-.
      exists (l ++ [a]). split_and!; [done| |].
      + apply NoDup_app. split_and!; [done| |apply NoDup_singleton].
        intros b Hb1 ->%list_elem_of_singleton. done.
      + intros b. rewrite in_bucket_contents, Hc, elem_of_app, list_elem_of_singleton, Hl.
        rewrite in_bucket_contents. destruct (decide (b = a)) as [->|Hne].
        * rewrite lookup_insert_eq. split; [|by right]. intros _. exists k, v.
          split; [done|]. unfold i. lia.
        * rewrite lookup_insert_ne by done. split; [intros [?|?]; done|]. by left.
    - eapply unique_keys_insert; [apply Hwf|done|].
      intros b Hb'. destruct Habs. by exists b. }
  assert (i < length (ht t))%nat as Hi.
  { rewrite (wf_len _ _ Hwf). unfold i. lia. }
  unfold insert. rewrite (proj2 (lookup_None t m k Hwf) Habs). cbn.
  fold a. rewrite Hb. cbn. destruct p as [c|].
  - (* the bucket has a chain: walk to its last node *)
    set (h1 := <[a := mkEntry 0 0 None]> (heap m)).
    assert (h1 !! a = Some (mkEntry 0 0 None)) as Ha1 by apply lookup_insert_eq.
    assert (seg h1 (Some c) l None) as Hs1.
    { eapply seg_ext; [|done]. intros b Hb1. unfold h1.
      rewrite lookup_insert_ne; [done|]. by intros <-. }
    destruct (last_loop_seg h1 l c (size h1) Hs1) as (l0 & z & ez & -> & Hlast & Hz & Hnz & Hs0).
    { unfold h1. rewrite map_size_insert_None by done.
      pose proof (bucket_ok_length t (heap m) i _ _ Hs Hnd Hl). lia. }
    assert (z ∈ l0 ++ [z]) as Hzl.
    { apply elem_of_app. right. apply list_elem_of_here. }
    assert (z ≠ a) as Hza by (by intros ->).
    assert (heap m !! z = Some ez) as Hz0.
    { unfold h1 in Hz. by rewrite lookup_insert_ne in Hz. }
    rewrite Hlast. cbn. rewrite Hz. cbn.
    rewrite lookup_insert_ne, Ha1 by done. cbn.
    rewrite lookup_insert_eq. cbn. rewrite insert_insert_eq. unfold set_heap. cbn.
    set (m' := mkMemory (<[a := mkEntry k v None]>
                           (<[z := mkEntry (key ez) (value ez) (Some a)]> h1))
                        (freed m) (mapped m)).
    exists t, m', (Some c), (l0 ++ [z]), (Some c).
    assert (contents m' = <[a := (k, v)]> (contents m)) as Hc.
    { apply map_eq. intros b. unfold contents, m', h1. cbn.
      rewrite !lookup_fmap, !lookup_insert, lookup_fmap.
      repeat case_decide; subst; try done. by rewrite Hz0. }
    assert (confined t m m' i) as Hconf.
    { intros b e. unfold m', h1. cbn. rewrite !lookup_insert.
      destruct (decide (a = b)) as [<-|Hab].
      { rewrite Hfresh. intros [?|[= <-]] Hsl; [done|]. cbn in Hsl. unfold i in Hsl. lia. }
      destruct (decide (z = b)) as [<-|Hzb]; [|done].
      apply Hl in Hzl as (e' & He' & Hzi). rewrite Hz0 in He'. injection He' as <-.
      rewrite Hz0. intros [[= <-]|[= <-]] Hsl; done. }
    assert (seg (heap m') (Some c) ((l0 ++ [z]) ++ [a]) None) as Hs'.
    { assert (NoDup (l0 ++ [z])) as Hnd' by done.
      apply NoDup_app in Hnd' as (_ & Hdisj & _).
      rewrite <- (assoc_L (++)). apply seg_app. exists (Some z). split.
      - eapply seg_ext; [|exact Hs0]. intros b Hb1. unfold m'. cbn.
        rewrite !lookup_insert_ne; [done| |].
        + intros <-. apply (Hdisj z Hb1). apply list_elem_of_here.
        + intros <-. apply Hal, elem_of_app. by left.
      - unfold m'. cbn. split; [done|]. eexists.
        rewrite lookup_insert_ne, lookup_insert_eq by done.
        split; [done|]. cbn. split; [done|]. eexists. rewrite lookup_insert_eq. done. }
    split_and!; try done.
    + unfold m'. cbn. by rewrite lookup_insert_eq.
    + by apply (Hwf' t m' (Some c)).
  - (* the bucket is empty: the new entry becomes its head *)
    apply seg_nil_inv in Hs as Hl0. subst l.
    rewrite bind_Some. cbv beta iota. cbn [heap].
    rewrite lookup_insert_eq, bind_Some. cbv beta zeta. cbn [set_heap heap value next].
    rewrite lookup_insert_eq, bind_Some. cbv beta. cbn [set_heap heap value next key freed mapped].
    rewrite !insert_insert_eq. unfold set_heap. cbn.
    set (t' := mkHashtable (htSize t) (mask t) (<[i := Some a]> (ht t))).
    set (m' := mkMemory (<[a := mkEntry k v None]> (heap m)) (freed m) (mapped m)).
    exists t', m', None, [], (Some a).
    assert (contents m' = <[a := (k, v)]> (contents m)) as Hc.
    { unfold contents, m'. cbn. by rewrite fmap_insert. }
    assert (confined t m m' i) as Hconf.
    { intros b e. unfold m'. cbn. rewrite lookup_insert.
      case_decide as Hab; [subst b|done].
      rewrite Hfresh. intros [?|[= <-]] Hsl; [done|]. cbn in Hsl. unfold i in Hsl. lia. }
    assert (∀ j, j ≠ i → ht t' !! j = ht t !! j) as Hoth.
    { intros j Hj. unfold t'. cbn. by rewrite list_lookup_insert_ne. }
    assert (length (ht t') = length (ht t)) as Hlen.
    { unfold t'. cbn. by rewrite length_insert. }
    assert (ht t' !! i = Some (Some a)) as Hp'.
    { unfold t'. cbn. by rewrite list_lookup_insert_eq. }
    assert (seg (heap m') (Some a) ([] ++ [a]) None) as Hs'.
    { unfold m'. cbn. split; [done|]. eexists. by rewrite lookup_insert_eq. }
    split_and!; try done.
    + unfold m'. cbn. by rewrite lookup_insert_eq.
    + by apply (Hwf' t' m' (Some a)).
Qed.

(** ** erase *)

Lemma delete_entry_live m a e :
  heap m !! a = Some e →
  delete_entry a m = Some (mkMemory (delete a (heap m)) (a :: freed m) (mapped m)).
Proof. unfold delete_entry. by intros ->. Qed.

(** The loop of [erase] on the chain [c :: l], whose head [c] does not
    hold the key: either no node of [l] holds it and nothing changes, or
    the first node [x] that holds it is unlinked and deleted. *)
Lemma erase_loop_seg k : ∀ l c fuel m,
  seg (heap m) (Some c) (c :: l) None → NoDup (c :: l) → (length (c :: l) ≤ fuel)%nat →
  ((∀ b e, b ∈ l → heap m !! b = Some e → key e ≠ k) ∧
   erase_loop fuel m c k = Some (false, m))
  ∨ (∃ l1 x l2 m',
       l = l1 ++ x :: l2 ∧ live_key m k x ∧
       erase_loop fuel m c k = Some (true, m') ∧
       freed m' = x :: freed m ∧ mapped m' = mapped m ∧
       contents m' = delete x (contents m) ∧
       seg (heap m') (Some c) (c :: l1 ++ l2) None ∧
       (∀ b, b ∉ c :: l → heap m' !! b = heap m !! b)).
Proof.
  induction l as [|n l IH]; intros c fuel m Hs Hnd Hf.
  - left. split; [by intros b e ?%elem_of_nil|].
    destruct Hs as [_ (e & He & Hn)]. cbn in Hn.
    destruct fuel as [|fuel]; [cbn in Hf; lia|]. cbn. rewrite He. cbn. by rewrite Hn.
  - destruct Hs as [_ (e & He & [Hn (en & Hen & Hs)])].
    destruct fuel as [|fuel]; [cbn in Hf; lia|]. cbn [erase_loop].
    rewrite He. cbn. rewrite Hn, Hen. cbn.
    apply NoDup_cons in Hnd as [Hc Hnd]. pose proof Hnd as [Hnl Hnd']%NoDup_cons.
    assert (c ≠ n) as Hcn.
    { intros ->. apply Hc, list_elem_of_here. }
    destruct (decide (key en = k)) as [Hk|Hk].
    + right. rewrite (delete_entry_live m n en Hen). cbn.
      rewrite lookup_delete_ne, He by done. cbn. unfold set_heap. cbn.
      set (m' := mkMemory (<[c := mkEntry (key e) (value e) (next en)]> (delete n (heap m)))
                          (n :: freed m) (mapped m)).
      exists [], n, l, m'. split; [done|]. split; [by exists en|]. split_and!; try done.
      * apply map_eq. intros b. unfold contents, m'. cbn.
        rewrite lookup_fmap, lookup_insert, !lookup_delete, lookup_fmap.
        repeat case_decide; subst; try done. by rewrite He.
      * unfold m'. cbn. eexists. rewrite lookup_insert_eq.
        split; [done|]. cbn. eapply seg_ext; [|done]. intros b Hb.
        rewrite lookup_insert_ne, lookup_delete_ne; [done|by intros <-|].
        intros <-. apply Hc. by apply list_elem_of_further.
      * intros b Hb. unfold m'. cbn.
        rewrite lookup_insert_ne, lookup_delete_ne; [done| |].
        -- intros <-. apply Hb. apply list_elem_of_further, list_elem_of_here.
        -- intros <-. apply Hb, list_elem_of_here.
    + destruct (IH n fuel m) as [[Hno Her]|(l1 & x & l2 & m' & -> & Hx & Her & ? & ? & ? & Hs' & Hout)].
      { cbn. split; [done|]. eauto. }
      { done. }
      { cbn in *. lia. }
      * left. split; [|done]. intros b eb [->|Hb]%elem_of_cons Heb; [congruence|eauto].
      * right. exists (n :: l1), x, l2, m'. split_and!; try done.
        -- cbn. exists e. split; [|by rewrite Hn].
           rewrite Hout; [done|]. intros [->|Hin]%elem_of_cons; [done|].
           apply Hc. by apply list_elem_of_further.
        -- intros b Hb. apply Hout. intros Hin. apply Hb. by apply list_elem_of_further.
Qed.

(** What [erase] does on a table that satisfies the invariant. *)
Lemma erase_spec t m k :
  wf t m →
  let i := Z.to_nat (slot t k) in
  (¬ present m k ∧ erase t m k = Some (false, (t, m)))
  ∨ (∃ x t' m' p l1 l2 p',
       live_key m k x ∧ erase t m k = Some (true, (t', m')) ∧
       contents m' = delete x (contents m) ∧
       freed m' = x :: freed m ∧ mapped m' = mapped m ∧
       htSize t' = htSize t ∧ mask t' = mask t ∧ length (ht t') = length (ht t) ∧
       (∀ j, j ≠ i → ht t' !! j = ht t !! j) ∧
       confined t m m' i ∧
       ht t !! i = Some p ∧ seg (heap m) p (l1 ++ x :: l2) None ∧
       ht t' !! i = Some p' ∧ seg (heap m') p' (l1 ++ l2) None ∧
       wf t' m').
Proof.
  intros Hwf i.
  pose proof (wf_slot t m k Hwf) as Hrange.
  destruct (wf_bucket t m k Hwf) as (p & Hb & Hht & l & Hs & Hnd & Hl). fold i in Hht, Hl.
  assert (i < length (ht t))%nat as Hi.
  { rewrite (wf_len _ _ Hwf). unfold i. lia. }
  assert (∀ b, live_key m k b → b ∈ l) as Hkl.
  { intros b (e & He & Hk). apply Hl. exists e. split; [done|]. rewrite Hk. unfold i. lia. }
  assert (∀ t' m' x l1 l2 p',
    l = l1 ++ x :: l2 →
    contents m' = delete x (contents m) →
    htSize t' = htSize t → mask t' = mask t → length (ht t') = length (ht t) →
    (∀ j, j ≠ i → ht t' !! j = ht t !! j) →
    confined t m m' i →
    ht t' !! i = Some p' → seg (heap m') p' (l1 ++ l2) None →
    wf t' m') as Hwf'.
  { intros t' m' x l1 l2 p' -> Hc Hsz Hm Hlen Hoth Hconf Hp' Hs'.
    apply NoDup_app in Hnd as (Hnd1 & Hdisj & [Hx2 Hnd2]%NoDup_cons).
    apply (wf_frame t m t' m' i); try done.
    - intros q Hq. rewrite Hp' in Hq. injection Hq as <-.
      exists (l1 ++ l2). split_and!; [done| |].
      + apply NoDup_app. split_and!; [done| |done].
        intros b Hb1 Hb2. apply (Hdisj b Hb1). by apply list_elem_of_further.
      + intros b. rewrite in_bucket_contents, Hc.
        destruct (decide (b = x)) as [->|Hne].
        * rewrite lookup_delete_eq. split; [|by intros (? & ? & ? & _)].
          intros [H1|H2]%elem_of_app; [|done]. destruct (Hdisj x H1). apply list_elem_of_here.
        * rewrite lookup_delete_ne by done. rewrite <- in_bucket_contents, <- Hl.
          rewrite !elem_of_app, elem_of_cons. tauto.
    - eapply unique_keys_delete; [apply Hwf|done]. }
  unfold erase. rewrite Hb. cbn. destruct p as [a|].
  - destruct l as [|a' l]; [done|]. destruct Hs as [[= <-] (e & He & Hs)].
    rewrite He. cbn. apply NoDup_cons in Hnd as Hnd'. destruct Hnd' as [Hal Hnd'].
    destruct (decide (key e = k)) as [Hk|Hk].
    + (* the head holds the key *)
      right. rewrite (delete_entry_live m a e He). cbn.
      set (t' := mkHashtable (htSize t) (mask t) (<[i := next e]> (ht t))).
      set (m' := mkMemory (delete a (heap m)) (a :: freed m) (mapped m)).
      exists a, t', m', (Some a), [], l, (next e).
      assert (contents m' = delete a (contents m)) as Hc.
      { unfold contents, m'. cbn. by rewrite fmap_delete. }
      assert (confined t m m' i) as Hconf.
      { intros b eb. unfold m'. cbn. rewrite lookup_delete.
        case_decide as Hab; [subst b|done]. rewrite He.
        intros [[= <-]|?] Hsl; [|done]. destruct Hsl.
        assert (a ∈ a :: l) as (e' & He' & ?)%Hl by apply list_elem_of_here. congruence. }
      assert (seg (heap m') (next e) ([] ++ l) None) as Hs'.
      { cbn. eapply seg_ext; [|done]. intros b Hb1. unfold m'. cbn.
        rewrite lookup_delete_ne; [done|]. by intros <-. }
      assert (∀ j, j ≠ i → ht t' !! j = ht t !! j) as Hoth.
      { intros j Hj. unfold t'. cbn. by rewrite list_lookup_insert_ne. }
      assert (length (ht t') = length (ht t)) as Hlen.
      { unfold t'. cbn. by rewrite length_insert. }
      assert (ht t' !! i = Some (next e)) as Hp'.
      { unfold t'. cbn. by rewrite list_lookup_insert_eq. }
      split; [by exists e|]. split_and!; try done.
      * cbn. split; [done|]. eauto.
      * by apply (Hwf' t' m' a [] l (next e)).
    + (* walk the chain behind the head *)
      destruct (erase_loop_seg k l a (size (heap m)) m) as
        [[Hno Her]|(l1 & x & l2 & m' & -> & Hx & Her & Hfr & Hmp & Hc & Hs' & Hout)].
      { cbn. split; [done|]. eauto. }
      { done. }
      { eapply (bucket_ok_length t (heap m) i (Some a) (a :: l)); [|done..].
        cbn. split; [done|]. eauto. }
      * left. rewrite Her. cbn. split; [|done].
        intros (b & Hb1). pose proof Hb1 as (eb & Heb & Hkb).
        apply Hkl in Hb1 as [->|Hb1]%elem_of_cons; [congruence|].
        by apply (Hno b eb).
      * right. rewrite Her. cbn.
        exists x, t, m', (Some a), (a :: l1), l2, (Some a).
        assert (confined t m m' i) as Hconf.
        { intros b eb Hor Hsl. destruct (decide (b ∈ a :: l1 ++ x :: l2)) as [Hin|Hnin].
          - exfalso. pose proof Hin as (e0 & He0 & Hs0)%Hl.
            destruct Hor as [Hb0|Hb'].
            + rewrite He0 in Hb0. by injection Hb0 as <-.
            + apply contents_key in Hb'. rewrite Hc, lookup_delete in Hb'.
              case_decide; [done|]. apply contents_Some in Hb' as (e1 & He1 & Hk1 & _).
              rewrite He0 in He1. injection He1 as <-. congruence.
          - by apply Hout. }
        split; [done|]. split_and!; try done.
        -- cbn. split; [done|]. eauto.
        -- by apply (Hwf' t m' x (a :: l1) l2 (Some a)).
  - left. split; [|done]. intros (b & Hb1). apply Hkl in Hb1.
    apply seg_nil_inv in Hs as ->. by apply elem_of_nil in Hb1.
Qed.

(** ** The constructor and the reachable states *)

(** What the constructor returns, with [c] the capacity. *)
Lemma Hashtable_new_eq (s : Z) (m : Memory) :
  1 ≤ s < 2 ^ 63 →
  let c := 2 ^ (Z.log2 s + 1) in
  Hashtable_new s m =
    Some (mkHashtable c (c - 1)
            (if decide (allocZeros (wrap (8 * c)) = 0) then []
             else replicate (Z.to_nat (wrap (8 * c) / 8)) None),
          mkMemory (heap m) (freed m) (allocZeros (wrap (8 * c)))).
Proof.
  intros Hs c. pose proof (log2_bound s Hs) as Hl.
  unfold Hashtable_new. rewrite clzl_log2 by (unfold two64; lia). cbn [mbind option_bind].
  replace (8 * 8 - (63 - Z.log2 s)) with (Z.log2 s + 1) by lia.
  rewrite shl64_one by lia. cbn [mbind option_bind]. fold c.
  do 3 f_equal. unfold wrap. rewrite Z.mod_small; [done|].
  pose proof (pow2_lt_two64 (Z.log2 s + 1)). fold c in H. lia.
Qed.

(** When the mapping succeeded the array has [htSize] cells. *)
Lemma Hashtable_new_mapped (s : Z) (m : Memory) t m' :
  1 ≤ s < 2 ^ 63 → Hashtable_new s m = Some (t, m') → mapped m' ≠ 0 →
  ht t = replicate (Z.to_nat (htSize t)) None.
Proof.
  intros Hs Hnew Hmap. rewrite Hashtable_new_eq in Hnew by done.
  injection Hnew as <- <-. cbn in *. rewrite decide_False by done.
  f_equal. f_equal. unfold allocZeros in Hmap. case_decide as Hw; [done|].
  pose proof (log2_bound s Hs) as Hl.
  pose proof (pow2_lt_two64 (Z.log2 s + 1)) as Hp.
  set (c := 2 ^ (Z.log2 s + 1)) in *.
  destruct (decide (8 * c < two64)) as [Hlt|Hge].
  - unfold wrap. rewrite Z.mod_small by lia. rewrite Z.mul_comm. apply Z.div_mul. lia.
  - exfalso. destruct (decide (Z.log2 s + 1 < 61)) as [Hsmall|Hbig].
    + apply Hge. unfold two64. change (2 ^ 64) with (8 * 2 ^ 61).
      apply Z.mul_lt_mono_pos_l; [lia|]. unfold c. apply Z.pow_lt_mono_r; lia.
    + apply Hw. unfold wrap, c.
      replace (Z.log2 s + 1) with (61 + (Z.log2 s + 1 - 61)) by lia.
      rewrite Z.pow_add_r by lia.
      replace (8 * (2 ^ 61 * 2 ^ (Z.log2 s + 1 - 61)))
        with (2 ^ (Z.log2 s + 1 - 61) * two64) by (unfold two64; lia).
      apply Z.mod_mul. unfold two64. lia.
Qed.

(** A freshly constructed table satisfies the invariant. *)
Lemma Hashtable_new_wf (s : Z) (m : Memory) t m' :
  1 ≤ s < 2 ^ 63 → heap m = ∅ →
  Hashtable_new s m = Some (t, m') → mapped m' ≠ 0 →
  wf t m' ∧ heap m' = ∅.
Proof.
  intros Hs Hm Hnew Hmap.
  pose proof (Hashtable_new_mapped s m t m' Hs Hnew Hmap) as Hht.
  rewrite Hashtable_new_eq in Hnew by done. injection Hnew as Ht Hm'.
  pose proof (log2_bound s Hs) as Hl.
  assert (heap m' = ∅) as Hh by (by rewrite <- Hm'). split; [|done]. split.
  - exists (Z.log2 s + 1). split; [lia|]. by rewrite <- Ht.
  - by rewrite <- Ht.
  - by rewrite Hht at 1; rewrite length_replicate.
  - intros i p Hi. rewrite Hht in Hi. apply lookup_replicate in Hi as [-> _].
    exists []. split_and!; [done|apply NoDup_nil_2|].
    intros a. rewrite Hh. split; [by intros ?%elem_of_nil|].
    intros (e & He & _). by rewrite lookup_empty in He.
  - intros a b ea eb Ha. by rewrite Hh, lookup_empty in Ha.
Qed.

Lemma reachable_wf s : reachable s → wf s.1 s.2.
Proof.
  induction 1 as [size [t m] Hs Hnew Hmap|[t m] k v b [t' m'] _ IH Hins
                 |[t m] k b [t' m'] _ IH Her]; cbn in *.
  - by apply (Hashtable_new_wf size empty_memory).
  - destruct (decide (present m k)) as [[a Ha]|Hn].
    + destruct (insert_present t m k v a IH Ha) as (e & He & Hk & Heq).
      rewrite Heq in Hins. injection Hins as _ <- <-. rewrite <- Hk. by apply wf_set_value.
    + destruct (insert_absent t m k v IH Hn) as (t1 & m1 & ? & ? & ? & Heq & H).
      rewrite Heq in Hins. injection Hins as _ <- <-. apply H.
  - destruct (erase_spec t m k IH) as [[_ Heq]|(x & t1 & m1 & ? & ? & ? & ? & _ & Heq & H)].
    + rewrite Heq in Her. by injection Her as _ <- <-.
    + rewrite Heq in Her. injection Her as _ <- <-. apply H.
Qed.

Lemma step_insert k v t m : step (CInsert k v) (t, m) = snd <$> insert t m k v.
Proof. reflexivity. Qed.

Lemma step_erase k t m : step (CErase k) (t, m) = snd <$> erase t m k.
Proof. reflexivity. Qed.

Lemma step_lookup k t m : step (CLookup k) (t, m) = (_ ← lookup t m k; Some (t, m)).
Proof. reflexivity. Qed.

(** No call returns on a table whose bucket array has no cell. *)
Lemma step_unmapped c t m : ht t = [] → step c (t, m) = None.
Proof.
  intros Hnil.
  assert (∀ k, lookup t m k = None) as Hl.
  { intros k. unfold lookup, bucket. rewrite Hnil. by case_decide. }
  destruct c as [k v|k|k]; unfold step; cbn [fst snd].
  - unfold insert. by rewrite Hl.
  - unfold erase, bucket. rewrite Hnil. by case_decide.
  - by rewrite Hl.
Qed.

(** Every call succeeds on a table that satisfies the invariant, and
    re-establishes it. *)
Lemma step_wf c t m : wf t m → ∃ t' m', step c (t, m) = Some (t', m') ∧ wf t' m'.
Proof.
  intros Hwf. destruct c as [k v|k|k]; cbn.
  - destruct (decide (present m k)) as [[a Ha]|Hn].
    + destruct (insert_present t m k v a Hwf Ha) as (e & He & Hk & ->).
      eexists _, _. split; [done|]. rewrite <- Hk. by apply wf_set_value.
    + destruct (insert_absent t m k v Hwf Hn) as (t1 & m1 & ? & ? & ? & -> & H).
      exists t1, m1. split; [done|]. apply H.
  - destruct (erase_spec t m k Hwf) as [[_ ->]|(x & t1 & m1 & ? & ? & ? & ? & _ & -> & H)].
    + by exists t, m.
    + exists t1, m1. split; [done|]. apply H.
  - destruct (lookup_total t m k Hwf) as (r & -> & _). by exists t, m.
Qed.

Lemma run_wf cs : ∀ t m, wf t m → ∃ t' m', run cs (t, m) = Some (t', m') ∧ wf t' m'.
Proof.
  induction cs as [|c cs IH]; intros t m Hwf; cbn.
  - by exists t, m.
  - destruct (step_wf c t m Hwf) as (t1 & m1 & -> & Hwf1). cbn. by apply IH.
Qed.

Lemma step_reachable c s s' : reachable s → step c s = Some s' → reachable s'.
Proof.
  intros Hr. destruct c as [k v|k|k]; cbn.
  - destruct (insert s.1 s.2 k v) as [[b s1]|] eqn:Hins; [|done].
    intros [= <-]. by eapply reach_insert.
  - destruct (erase s.1 s.2 k) as [[b s1]|] eqn:Her; [|done].
    intros [= <-]. by eapply reach_erase.
  - destruct (lookup s.1 s.2 k); [|done]. by intros [= <-].
Qed.

Lemma run_reachable cs : ∀ s s', reachable s → run cs s = Some s' → reachable s'.
Proof.
  induction cs as [|c cs IH]; intros s s' Hr; cbn.
  - by intros [= <-].
  - destruct (step c s) as [s1|] eqn:Hst; [|done]. cbn.
    apply IH. by eapply step_reachable.
Qed.

(** The chain of a bucket, as [chain_of] computes it. *)
Lemma wf_chain_of t m (i : nat) p l :
  wf t m → ht t !! i = Some p → seg (heap m) p l None →
  chain_of t m (Z.of_nat i) = Some l.
Proof.
  intros Hwf Hi Hs. unfold chain_of, bucket. rewrite decide_True by lia.
  rewrite Nat2Z.id, Hi. cbn. apply seg_walk; [done|].
  destruct (wf_buckets _ _ Hwf i p Hi) as (l' & Hs' & Hnd & Hl).
  rewrite (seg_det _ _ _ _ Hs Hs'). by eapply bucket_ok_length.
Qed.

(** ** Sample tables *)

Lemma sample_new_reachable (size : Z) :
  1 ≤ size < 2 ^ 63 → mapped (sample_new size).2 ≠ 0 → reachable (sample_new size).
Proof.
  intros Hs Hmap. apply (reach_new size); [done| |done].
  unfold sample_new. by rewrite Hashtable_new_eq.
Qed.

Lemma sample_run_reachable (size : Z) (cs : list call) :
  1 ≤ size < 2 ^ 63 → mapped (sample_new size).2 ≠ 0 → reachable (sample_run size cs).
Proof.
  intros Hs Hmap. pose proof (sample_new_reachable size Hs Hmap) as Hr.
  pose proof (reachable_wf _ Hr) as Hwf. unfold sample_run.
  destruct (sample_new size) as [t m] eqn:Heq. cbn in Hwf.
  destruct (run_wf cs t m Hwf) as (t' & m' & Hrun & _). rewrite Hrun. cbn.
  by eapply run_reachable.
Qed.

(** ** Capacity *)

Lemma pow2_log2_gt (s : Z) : 1 ≤ s → smallest_pow2_gt s (2 ^ (Z.log2 s + 1)).
Proof.
  intros Hs. pose proof (Z.log2_nonneg s) as Hl0.
  destruct (Z.log2_spec s) as [Hlo Hhi]; [lia|].
  replace (Z.succ (Z.log2 s)) with (Z.log2 s + 1) in Hhi by lia.
  split_and!.
  - exists (Z.log2 s + 1). split; [lia|done].
  - done.
  - intros c' (n & Hn & ->) Hc'. apply Z.pow_le_mono_r; [lia|].
    assert (Z.log2 s < n); [|lia]. apply (Z.pow_lt_mono_r_iff 2); lia.
Qed.

(** C1 fails as stated: asked for 4 buckets, the constructor makes 8,
    and 4 is itself a power of two that is at least 4. *)
Lemma C1_counterexample :
  ∃ t m, Hashtable_new 4 empty_memory = Some (t, m) ∧ htSize t = 8 ∧
         ¬ smallest_pow2_ge 4 (htSize t).
Proof.
  eexists _, _. split; [vm_compute; reflexivity|]. cbn. split; [done|].
  intros (_ & _ & Hmin). specialize (Hmin 4).
  assert (8 ≤ 4); [|lia]. apply Hmin; [|lia]. exists 2. split; [lia|done].
Qed.

(** C1, amended: for every requested size [s] with [1 <= s < 2^63] the
    constructor makes the capacity the smallest power of two strictly
    greater than [s]; it is the smallest power of two greater than or
    equal to [s] whenever [s] is not itself a power of two. *)
Theorem C1_capacity_smallest_power_above (s : Z) (m : Memory) :
  1 ≤ s < 2 ^ 63 →
  ∃ t m', Hashtable_new s m = Some (t, m') ∧
          smallest_pow2_gt s (htSize t) ∧
          (¬ is_pow2 s → smallest_pow2_ge s (htSize t)).
Proof.
  intros Hs. rewrite Hashtable_new_eq by done. eexists _, _. split; [done|]. cbn.
  destruct (pow2_log2_gt s) as (Hp & Hgt & Hmin); [lia|].
  split; [done|]. intros Hnp. split_and!; [done|lia|].
  intros c' Hc' Hle. apply Hmin; [done|].
  destruct (decide (s = c')) as [->|?]; [done|lia].
Qed.

Lemma C1_capacity_smallest_power_above_witness :
  ∃ t m', Hashtable_new 10 empty_memory = Some (t, m') ∧
          smallest_pow2_gt 10 (htSize t) ∧
          (¬ is_pow2 10 → smallest_pow2_ge 10 (htSize t)).
Proof. apply (C1_capacity_smallest_power_above 10 empty_memory). lia. Defined.

(** C9: for every requested size [s] with [1 <= s < 2^63] the capacity
    is a power of two and at least [s]; when [s] is an exact power of two
    the capacity is twice [s], strictly above [s]. *)
Theorem C9_capacity_power_of_two (s : Z) (m : Memory) :
  1 ≤ s < 2 ^ 63 →
  ∃ t m', Hashtable_new s m = Some (t, m') ∧
          is_pow2 (htSize t) ∧ s ≤ htSize t ∧
          (is_pow2 s → htSize t = 2 * s ∧ s < htSize t).
Proof.
  intros Hs. rewrite Hashtable_new_eq by done. eexists _, _. split; [done|]. cbn.
  destruct (pow2_log2_gt s) as (Hp & Hgt & _); [lia|].
  split_and!; [done|lia|]. intros (n & Hn & ->).
  rewrite Z.log2_pow2 by done. rewrite Z.pow_add_r by lia.
  pose proof (Z.pow_pos_nonneg 2 n). lia.
Qed.

Lemma C9_capacity_power_of_two_witness :
  ∃ t m', Hashtable_new 8 empty_memory = Some (t, m') ∧
          is_pow2 (htSize t) ∧ 8 ≤ htSize t ∧
          (is_pow2 8 → htSize t = 2 * 8 ∧ 8 < htSize t).
Proof. apply (C9_capacity_power_of_two 8 empty_memory). lia. Defined.

(** ** Bucket indices *)

(** From [2^60] on, the byte count of the bucket array wraps to 0 and
    nothing is mapped. *)
Lemma Hashtable_new_unmapped (s : Z) (m : Memory) t m' :
  1 ≤ s < 2 ^ 63 → 2 ^ 60 ≤ s → Hashtable_new s m = Some (t, m') →
  mapped m' = 0 ∧ ht t = [].
Proof.
  intros Hs Hbig Hnew. rewrite Hashtable_new_eq in Hnew by done.
  injection Hnew as <- <-. cbn [mapped ht].
  assert (wrap (8 * 2 ^ (Z.log2 s + 1)) = 0) as Hw.
  { assert (60 ≤ Z.log2 s) as Hl by (apply Z.log2_le_pow2; lia).
    pose proof (log2_bound s Hs).
    replace (Z.log2 s + 1) with (61 + (Z.log2 s + 1 - 61)) by lia.
    rewrite Z.pow_add_r by lia.
    replace (8 * (2 ^ 61 * 2 ^ (Z.log2 s + 1 - 61)))
      with (2 ^ (Z.log2 s + 1 - 61) * two64) by (unfold two64; lia).
    unfold wrap. apply Z.mod_mul. unfold two64. lia. }
  rewrite Hw. unfold allocZeros. by rewrite !decide_True by done.
Qed.

Lemma step_shape c s s' :
  step c s = Some s' → wf s.1 s.2 → htSize s'.1 = htSize s.1 ∧ mask s'.1 = mask s.1.
Proof.
  destruct s as [t m]. intros Hst Hwf. cbn [fst snd] in *.
  destruct c as [k v|k|k].
  - rewrite step_insert in Hst. destruct (decide (present m k)) as [[a Ha]|Hn].
    + destruct (insert_present t m k v a Hwf Ha) as (e & _ & _ & Heq).
      rewrite Heq in Hst. by injection Hst as <-.
    + destruct (insert_absent t m k v Hwf Hn)
        as (t1 & m1 & ? & ? & ? & Heq & _ & _ & _ & _ & ? & ? & _).
      rewrite Heq in Hst. by injection Hst as <-.
  - rewrite step_erase in Hst. destruct (erase_spec t m k Hwf)
      as [[_ Heq]|(x & t1 & m1 & ? & ? & ? & ? & _ & Heq & _ & _ & _ & ? & ? & _)].
    + rewrite Heq in Hst. by injection Hst as <-.
    + rewrite Heq in Hst. by injection Hst as <-.
  - rewrite step_lookup in Hst. destruct (lookup t m k); [|done]. by injection Hst as <-.
Qed.

Lemma run_shape cs : ∀ s s',
  run cs s = Some s' → wf s.1 s.2 →
  wf s'.1 s'.2 ∧ htSize s'.1 = htSize s.1 ∧ mask s'.1 = mask s.1.
Proof.
  induction cs as [|c cs IH]; intros s s'; cbn.
  - by intros [= <-].
  - destruct (step c s) as [s1|] eqn:Hst; [|done]. cbn. intros Hrun Hwf.
    destruct (step_shape c s s1 Hst Hwf) as [Hsz Hm].
    destruct s as [t m]. destruct (step_wf c t m Hwf) as (t1 & m1 & Hst' & Hwf1).
    rewrite Hst in Hst'. injection Hst' as ->.
    destruct (IH _ _ Hrun Hwf1) as (? & ? & ?). split_and!; [done|congruence..].
Qed.

(** C10 fails as stated: asked for [2^60] buckets, the constructor
    computes [htSize = 2^61] and a byte count [8 * 2^61] that wraps to 0,
    so that nothing is mapped; the bucket index of key 0 is below
    [htSize], and yet [ht[hashKey(0) & mask]] is no cell of the array:
    [lookup], [insert] and [erase] are undefined. *)
Lemma C10_counterexample :
  ∃ t m, Hashtable_new (2 ^ 60) empty_memory = Some (t, m) ∧
         htSize t = 2 ^ 61 ∧ mask t = htSize t - 1 ∧ mapped m = 0 ∧
         0 ≤ slot t 0 < htSize t ∧ bucket t (slot t 0) = None ∧
         lookup t m 0 = None ∧ insert t m 0 0 = None ∧ erase t m 0 = None.
Proof.
  destruct (Hashtable_new (2 ^ 60) empty_memory) as [[t m]|] eqn:Hnew.
  2:{ by rewrite Hashtable_new_eq in Hnew by lia. }
  destruct (Hashtable_new_unmapped (2 ^ 60) empty_memory t m) as [Hmap Hnil]; [lia..|done|].
  rewrite Hashtable_new_eq in Hnew by lia. injection Hnew as Ht _.
  assert (htSize t = 2 ^ 61 ∧ mask t = htSize t - 1) as [Hsz Hm].
  { rewrite <- Ht. cbn [htSize mask]. split; vm_compute; reflexivity. }
  assert (∀ k, bucket t k = None) as Hb.
  { intros k. unfold bucket. rewrite Hnil. by case_decide. }
  exists t, m. split_and!; [done..| | | | | |].
  - apply slot_range; [|done]. exists 61. split; [lia|done].
  - apply slot_range; [|done]. exists 61. split; [lia|done].
  - apply Hb.
  - unfold lookup. by rewrite Hb.
  - unfold insert, lookup. by rewrite Hb.
  - unfold erase. by rewrite Hb.
Qed.

(** C10, amended: for a table constructed with requested size [s],
    [1 <= s < 2^63], [mask] is [htSize - 1] with [htSize] a nonzero
    power of two, so [hashKey(k) & mask] is below [htSize] for every key;
    and once the bucket array is mapped, every sequence of calls runs
    without fault and leaves a table in which [ht[hashKey(k) & mask]] is
    a cell of the array, for every key. *)
Theorem C10_bucket_index_in_bounds (s : Z) :
  1 ≤ s < 2 ^ 63 →
  ∃ t m, Hashtable_new s empty_memory = Some (t, m) ∧
         is_pow2 (htSize t) ∧ htSize t ≠ 0 ∧ mask t = htSize t - 1 ∧
         (∀ k, 0 ≤ slot t k < htSize t) ∧
         (mapped m ≠ 0 →
          ∀ cs, ∃ t' m', run cs (t, m) = Some (t', m') ∧
                         htSize t' = htSize t ∧ mask t' = mask t ∧
                         length (ht t') = Z.to_nat (htSize t') ∧
                         ∀ k, 0 ≤ slot t' k < htSize t' ∧
                              is_Some (bucket t' (slot t' k))).
Proof.
  intros Hs. pose proof (Hashtable_new_eq s empty_memory Hs) as Hnew. cbn zeta in Hnew.
  pose proof (log2_bound s Hs) as Hl.
  eexists _, _. split; [exact Hnew|].
  set (t := mkHashtable _ _ _) in *. set (m := mkMemory _ _ _) in *.
  assert (∃ n, 0 ≤ n < 64 ∧ htSize t = 2 ^ n) as Hsz.
  { exists (Z.log2 s + 1). split; [lia|done]. }
  assert (mask t = htSize t - 1) as Hm by done.
  split_and!.
  - exists (Z.log2 s + 1). split; [lia|done].
  - destruct Hsz as (n & Hn & ->). pose proof (Z.pow_pos_nonneg 2 n). lia.
  - done.
  - intros k. by apply slot_range.
  - intros Hmap cs.
    destruct (Hashtable_new_wf s empty_memory t m Hs eq_refl Hnew Hmap) as [Hwf _].
    destruct (run_wf cs t m Hwf) as (t' & m' & Hrun & Hwf').
    destruct (run_shape cs _ _ Hrun Hwf) as (_ & Hsz' & Hm').
    exists t', m'. split_and!; [done..|apply Hwf'|].
    intros k. split; [by apply (wf_slot t' m')|].
    destruct (wf_bucket t' m' k Hwf') as (p & -> & _). done.
Qed.

Lemma C10_bucket_index_in_bounds_witness :
  ∃ t m, Hashtable_new 10 empty_memory = Some (t, m) ∧
         is_pow2 (htSize t) ∧ htSize t ≠ 0 ∧ mask t = htSize t - 1 ∧
         (∀ k, 0 ≤ slot t k < htSize t) ∧
         (mapped m ≠ 0 →
          ∀ cs, ∃ t' m', run cs (t, m) = Some (t', m') ∧
                         htSize t' = htSize t ∧ mask t' = mask t ∧
                         length (ht t') = Z.to_nat (htSize t') ∧
                         ∀ k, 0 ≤ slot t' k < htSize t' ∧
                              is_Some (bucket t' (slot t' k))).
Proof. apply (C10_bucket_index_in_bounds 10). lia. Defined.

(** ** What the calls do to the keys and values *)

Lemma insert_contents t m k v :
  wf t m →
  ∃ b t' m' a,
    insert t m k v = Some (b, (t', m')) ∧ wf t' m' ∧
    contents m' = <[a := (k, v)]> (contents m) ∧
    (if b then heap m !! a = None ∧ ¬ present m k else live_key m k a).
Proof.
  intros Hwf. destruct (decide (present m k)) as [[a Ha]|Hn].
  - destruct (insert_present t m k v a Hwf Ha) as (e & He & Hk & ->).
    eexists false, _, _, a. split_and!; [done| |by rewrite contents_set_heap_insert|done].
    rewrite <- Hk. by apply wf_set_value.
  - destruct (insert_absent t m k v Hwf Hn)
      as (t' & m' & p & l & p' & -> & _ & Hc & H).
    exists true, t', m', (fresh (dom (heap m))).
    split_and!; [done|apply H|done|apply fresh_not_live|done].
Qed.

Lemma erase_contents t m k :
  wf t m →
  (¬ present m k ∧ erase t m k = Some (false, (t, m)))
  ∨ (∃ x t' m', live_key m k x ∧ erase t m k = Some (true, (t', m')) ∧ wf t' m' ∧
                contents m' = delete x (contents m) ∧ freed m' = x :: freed m).
Proof.
  intros Hwf. destruct (erase_spec t m k Hwf)
    as [?|(x & t' & m' & ? & ? & ? & ? & ? & ? & ? & ? & H)]; [by left|].
  right. exists x, t', m'. split_and!; [done..|apply H|done|done].
Qed.

Lemma lookup_value_Some t m k v :
  wf t m → lookup_value t m k = Some (Some v) ↔ ∃ a, contents m !! a = Some (k, v).
Proof.
  intros Hwf. unfold lookup_value.
  destruct (lookup_total t m k Hwf) as (r & Hr & Hspec). rewrite Hr. cbn. split.
  - destruct r as [a|]; [|done]. destruct Hspec as (e & He & Hk). rewrite He. cbn.
    intros [= <-]. exists a. rewrite <- Hk. by apply contents_key.
  - intros (a & Ha). assert (live_key m k a) as Hlk.
    { apply live_key_contents. eauto. }
    apply (lookup_Some t m k a Hwf) in Hlk. rewrite Hr in Hlk. injection Hlk as ->.
    apply contents_Some in Ha as (e & -> & _ & <-). done.
Qed.

Lemma lookup_value_None t m k :
  wf t m → lookup_value t m k = Some None ↔ ¬ present m k.
Proof.
  intros Hwf. unfold lookup_value.
  destruct (lookup_total t m k Hwf) as (r & Hr & Hspec). rewrite Hr. cbn.
  destruct r as [a|].
  - destruct Hspec as (e & He & Hk). rewrite He. cbn. split; [done|].
    intros []. exists a, e. done.
  - done.
Qed.

(** A call that [keeps] the binding of [k] to [v] leaves it in place. *)
Lemma step_keeps k v c t m :
  wf t m → keeps k v c → (∃ a, contents m !! a = Some (k, v)) →
  ∃ t' m', step c (t, m) = Some (t', m') ∧ wf t' m' ∧
           ∃ a, contents m' !! a = Some (k, v).
Proof.
  intros Hwf Hkeep (a & Ha). destruct c as [k' v'|k'|k']; cbn in *.
  - destruct (insert_contents t m k' v' Hwf) as (b & t' & m' & a' & -> & Hwf' & Hc & Hb).
    exists t', m'. split_and!; [done..|]. exists a. rewrite Hc, lookup_insert.
    case_decide as Heq; [subst a'|done]. destruct b.
    + destruct Hb as [Hb _]. apply contents_None in Hb. congruence.
    + apply live_key_contents in Hb as (v0 & Hb). rewrite Ha in Hb. injection Hb as <- <-.
      by rewrite Hkeep.
  - destruct (erase_contents t m k' Hwf) as [[_ ->]|(x & t' & m' & Hx & -> & Hwf' & Hc & _)].
    + exists t, m. eauto.
    + exists t', m'. split_and!; [done..|]. exists a. rewrite Hc, lookup_delete_ne; [done|].
      intros ->. apply live_key_contents in Hx as (v0 & Hx). congruence.
  - destruct (lookup_total t m k' Hwf) as (r & -> & _). exists t, m. eauto.
Qed.

Lemma run_keeps k v cs : ∀ t m,
  wf t m → Forall (keeps k v) cs → (∃ a, contents m !! a = Some (k, v)) →
  ∃ t' m', run cs (t, m) = Some (t', m') ∧ wf t' m' ∧
           ∃ a, contents m' !! a = Some (k, v).
Proof.
  induction cs as [|c cs IH]; intros t m Hwf Hall Ha; cbn.
  - exists t, m. eauto.
  - apply Forall_cons in Hall as [Hc Hall].
    destruct (step_keeps k v c t m Hwf Hc Ha) as (t1 & m1 & -> & Hwf1 & Ha1). cbn.
    by apply IH.
Qed.

(** C3: once [insert(k, v)] has returned on a reachable table,
    [lookup(k)] returns an entry whose value is [v], and it still does
    after any sequence of calls among which [k] is neither erased nor
    inserted with another value; each of these calls returns. *)
Theorem C3_insert_then_lookup (s s1 : state) (k v : Z) (b : bool) (cs : list call) :
  reachable s →
  insert s.1 s.2 k v = Some (b, s1) →
  Forall (keeps k v) cs →
  lookup_value s1.1 s1.2 k = Some (Some v) ∧
  ∃ s2, run cs s1 = Some s2 ∧ lookup_value s2.1 s2.2 k = Some (Some v).
Proof.
  intros Hr Hins Hcs. destruct s as [t m]. apply reachable_wf in Hr as Hwf. cbn in *.
  destruct (insert_contents t m k v Hwf) as (b' & t1 & m1 & a & Heq & Hwf1 & Hc & _).
  rewrite Heq in Hins. injection Hins as _ <-. cbn.
  assert (∃ a, contents m1 !! a = Some (k, v)) as Ha.
  { exists a. by rewrite Hc, lookup_insert_eq. }
  split; [by apply lookup_value_Some|].
  destruct (run_keeps k v cs t1 m1 Hwf1 Hcs Ha) as (t2 & m2 & Hrun & Hwf2 & Ha2).
  exists (t2, m2). split; [done|]. by apply lookup_value_Some.
Qed.

Lemma C3_insert_then_lookup_witness :
  let s := sample_run 10 [CInsert 0 42; CInsert 2 42] in
  let s1 := sample_run 10 [CInsert 0 42; CInsert 2 42; CInsert 0 7] in
  let cs := [CInsert 2 9; CErase 2; CLookup 0; CInsert 0 7; CErase 5] in
  lookup_value s1.1 s1.2 0 = Some (Some 7) ∧
  ∃ s2, run cs s1 = Some s2 ∧ lookup_value s2.1 s2.2 0 = Some (Some 7).
Proof.
  cbv zeta.
  apply (C3_insert_then_lookup (sample_run 10 [CInsert 0 42; CInsert 2 42]) _ 0 7 false).
  - apply sample_run_reachable; [lia|vm_compute; discriminate].
  - vm_compute. reflexivity.
  - repeat constructor; cbn; intros; lia.
Defined.

(** C4: on a reachable table, [insert(k, v)] of a key that is present
    returns false, leaves the table object and the set of live entries as
    they are (no entry is allocated, none is released), and changes the
    memory only by overwriting the value in the entry that holds [k];
    [insert(k, v)] of a key that is absent returns true and leaves one
    more live entry. *)
Theorem C4_update_semantics (s : state) (k v : Z) :
  reachable s →
  (present s.2 k →
   ∃ a e, heap s.2 !! a = Some e ∧ key e = k ∧
          insert s.1 s.2 k v =
            Some (false, (s.1, set_heap (<[a := mkEntry k v (next e)]> (heap s.2)) s.2)) ∧
          dom (<[a := mkEntry k v (next e)]> (heap s.2)) = dom (heap s.2) ∧
          size (<[a := mkEntry k v (next e)]> (heap s.2)) = size (heap s.2)) ∧
  (¬ present s.2 k →
   ∃ s', insert s.1 s.2 k v = Some (true, s') ∧
         size (heap s'.2) = S (size (heap s.2)) ∧ freed s'.2 = freed s.2).
Proof.
  intros Hr. destruct s as [t m]. apply reachable_wf in Hr as Hwf. cbn in *. split.
  - intros [a Ha]. destruct (insert_present t m k v a Hwf Ha) as (e & He & Hk & Heq).
    exists a, e. split_and!; [done..| |].
    + apply dom_insert_lookup_L. eauto.
    + rewrite <- !(size_dom (D := gset loc)). f_equal. apply dom_insert_lookup_L. eauto.
  - intros Hn. destruct (insert_absent t m k v Hwf Hn)
      as (t' & m' & p & l & p' & Heq & _ & Hc & Hfr & _).
    exists (t', m'). split_and!; [done| |done]. cbn.
    rewrite <- !size_contents, Hc. apply map_size_insert_None, contents_None, fresh_not_live.
Qed.

Lemma C4_update_semantics_witness :
  let s := sample_run 10 [CInsert 0 42; CInsert 2 42] in
  (present s.2 0 →
   ∃ a e, heap s.2 !! a = Some e ∧ key e = 0 ∧
          insert s.1 s.2 0 7 =
            Some (false, (s.1, set_heap (<[a := mkEntry 0 7 (next e)]> (heap s.2)) s.2)) ∧
          dom (<[a := mkEntry 0 7 (next e)]> (heap s.2)) = dom (heap s.2) ∧
          size (<[a := mkEntry 0 7 (next e)]> (heap s.2)) = size (heap s.2)) ∧
  (¬ present s.2 0 →
   ∃ s', insert s.1 s.2 0 7 = Some (true, s') ∧
         size (heap s'.2) = S (size (heap s.2)) ∧ freed s'.2 = freed s.2).
Proof.
  cbv zeta. apply (C4_update_semantics (sample_run 10 [CInsert 0 42; CInsert 2 42]) 0 7).
  apply sample_run_reachable; [lia|vm_compute; discriminate].
Defined.

(** C5: on a reachable table [erase(k)] returns, and returns true
    exactly when [k] is present; when it returns false the table and the
    memory are unchanged; when it returns true, one entry holding [k] has
    been released and [erase(k)] called again at once returns false and
    changes nothing. *)
Theorem C5_erase_result (s : state) (k : Z) :
  reachable s →
  ∃ b s', erase s.1 s.2 k = Some (b, s') ∧
          (b = true ↔ present s.2 k) ∧
          (b = false → s' = s) ∧
          (b = true → (∃ x, live_key s.2 k x ∧ freed s'.2 = x :: freed s.2) ∧
                      ¬ present s'.2 k ∧
                      erase s'.1 s'.2 k = Some (false, s')).
Proof.
  intros Hr. destruct s as [t m]. apply reachable_wf in Hr as Hwf. cbn in *.
  destruct (erase_contents t m k Hwf) as [[Hn Heq]|(x & t' & m' & Hx & Heq & Hwf' & Hc & Hfr)].
  - exists false, (t, m). split_and!; [done| |done|done]. split; [done|]. by intros ?.
  - exists true, (t', m'). split_and!; [done| |done|]. { split; [|done]. intros _. by exists x. }
    intros _. cbn.
    assert (¬ present m' k) as Hn.
    { intros (y & (vy & Hy)%live_key_contents). rewrite Hc in Hy.
      apply lookup_delete_Some in Hy as [Hne Hy]. apply Hne.
      apply (live_key_unique m k); [apply Hwf|done|]. apply live_key_contents. eauto. }
    split_and!; [by exists x|done|].
    destruct (erase_contents t' m' k Hwf') as [[_ ?]|(y & ? & ? & Hy & _)]; [done|].
    destruct Hn. by exists y.
Qed.

Lemma C5_erase_result_witness :
  let s := sample_run 10 [CInsert 0 42; CInsert 2 42] in
  ∃ b s', erase s.1 s.2 2 = Some (b, s') ∧
          (b = true ↔ present s.2 2) ∧
          (b = false → s' = s) ∧
          (b = true → (∃ x, live_key s.2 2 x ∧ freed s'.2 = x :: freed s.2) ∧
                      ¬ present s'.2 2 ∧
                      erase s'.1 s'.2 2 = Some (false, s')).
Proof.
  cbv zeta. apply (C5_erase_result (sample_run 10 [CInsert 0 42; CInsert 2 42]) 2).
  apply sample_run_reachable; [lia|vm_compute; discriminate].
Defined.

(** C6: on a reachable table, for distinct keys [k1] and [k2] with [k2]
    present, [erase(k1)] returns and [lookup(k2)] afterwards returns the
    same entry as before, holding the same key and value, whichever
    buckets the two keys select. *)
Theorem C6_erase_other_key (s : state) (k1 k2 : Z) :
  reachable s → k1 ≠ k2 → present s.2 k2 →
  ∃ b s' a v,
    erase s.1 s.2 k1 = Some (b, s') ∧
    lookup s.1 s.2 k2 = Some (Some a) ∧ lookup s'.1 s'.2 k2 = Some (Some a) ∧
    contents s.2 !! a = Some (k2, v) ∧ contents s'.2 !! a = Some (k2, v) ∧
    lookup_value s.1 s.2 k2 = Some (Some v) ∧ lookup_value s'.1 s'.2 k2 = Some (Some v).
Proof.
  intros Hr Hne [a Ha]. destruct s as [t m]. apply reachable_wf in Hr as Hwf. cbn in *.
  pose proof Ha as (v & Hv)%live_key_contents.
  assert (∀ t' m', wf t' m' → contents m' !! a = Some (k2, v) →
    lookup t' m' k2 = Some (Some a) ∧ lookup_value t' m' k2 = Some (Some v)) as Hlk.
  { intros t' m' Hwf' Hc. split.
    - apply lookup_Some; [done|]. apply live_key_contents. eauto.
    - apply lookup_value_Some; eauto. }
  destruct (Hlk t m Hwf Hv) as [Hl0 Hv0].
  destruct (erase_contents t m k1 Hwf) as [[Hn Heq]|(x & t' & m' & Hx & Heq & Hwf' & Hc & Hfr)].
  - exists false, (t, m), a, v. by split_and!.
  - assert (contents m' !! a = Some (k2, v)) as Hv'.
    { rewrite Hc, lookup_delete_ne; [done|]. intros ->.
      apply live_key_contents in Hx as (v1 & Hx). congruence. }
    destruct (Hlk t' m' Hwf' Hv') as [Hl1 Hv1].
    exists true, (t', m'), a, v. by split_and!.
Qed.

Lemma C6_erase_other_key_witness :
  let s := sample_run 10 [CInsert 0 42; CInsert 2 43] in
  slot s.1 0 = slot s.1 2 ∧
  ∃ b s' a v,
    erase s.1 s.2 0 = Some (b, s') ∧
    lookup s.1 s.2 2 = Some (Some a) ∧ lookup s'.1 s'.2 2 = Some (Some a) ∧
    contents s.2 !! a = Some (2, v) ∧ contents s'.2 !! a = Some (2, v) ∧
    lookup_value s.1 s.2 2 = Some (Some v) ∧ lookup_value s'.1 s'.2 2 = Some (Some v).
Proof.
  cbv zeta. split; [vm_compute; reflexivity|].
  apply (C6_erase_other_key (sample_run 10 [CInsert 0 42; CInsert 2 43]) 0 2).
  - apply sample_run_reachable; [lia|vm_compute; discriminate].
  - lia.
  - exists 2%positive, (mkEntry 2 43 None). split; vm_compute; reflexivity.
Defined.

(** C7: in every state reached from a freshly constructed table
    (requested size [1 <= size < 2^63]) by calls of [insert], [erase] and
    [lookup], no two live entries hold the same key. *)
Theorem C7_unique_keys (size : Z) (cs : list call) (s0 s : state) :
  1 ≤ size < 2 ^ 63 →
  Hashtable_new size empty_memory = Some s0 →
  run cs s0 = Some s →
  unique_keys s.2.
Proof.
  intros Hs Hnew Hrun. destruct s0 as [t0 m0].
  destruct (decide (mapped m0 = 0)) as [Hz|Hnz].
  - (* the bucket array was not mapped: no call returns *)
    rewrite Hashtable_new_eq in Hnew by done. injection Hnew as <- <-.
    cbn [mapped] in Hz.
    destruct cs as [|c cs].
    + injection Hrun as <-. intros a b ea eb Ha. cbn in Ha. by rewrite lookup_empty in Ha.
    + cbn [run] in Hrun. rewrite step_unmapped in Hrun; [done|].
      cbn [ht]. by rewrite decide_True.
  - assert (reachable (t0, m0)) as Hr by by apply (reach_new size).
    apply (run_reachable cs _ s) in Hr; [|done]. apply reachable_wf in Hr. apply Hr.
Qed.

Lemma C7_unique_keys_witness :
  unique_keys (sample_run 10 [CInsert 0 42; CInsert 2 43; CInsert 0 1; CErase 2]).2.
Proof.
  apply (C7_unique_keys 10 [CInsert 0 42; CInsert 2 43; CInsert 0 1; CErase 2]
                        (sample_new 10)).
  - lia.
  - vm_compute. reflexivity.
  - vm_compute. reflexivity.
Defined.

(** ** Order of the chains *)

Lemma chain_of_out_of_range t m (j : Z) :
  ¬ (0 ≤ j < Z.of_nat (length (ht t))) → chain_of t m j = None.
Proof.
  intros Hj. unfold chain_of, bucket. case_decide; [|done].
  rewrite (lookup_ge_None_2 (ht t)); [done|lia].
Qed.

(** A change confined to bucket [i] leaves the chain of any other bucket
    as it is. *)
Lemma chain_of_frame t m t' m' (i : nat) (j : Z) :
  wf t m → wf t' m' → length (ht t') = length (ht t) →
  (∀ j', j' ≠ i → ht t' !! j' = ht t !! j') →
  confined t m m' i → j ≠ Z.of_nat i →
  chain_of t' m' j = chain_of t m j.
Proof.
  intros Hwf Hwf' Hlen Hoth Hconf Hj.
  destruct (decide (0 ≤ j < Z.of_nat (length (ht t)))) as [Hr|Hr].
  - destruct (lookup_lt_is_Some_2 (ht t) (Z.to_nat j)) as [p Hp]; [lia|].
    destruct (wf_buckets _ _ Hwf _ _ Hp) as (l & Hs & _).
    assert (Z.to_nat j ≠ i) as Hne by lia.
    pose proof (seg_frame t m m' i _ p l Hwf Hconf Hne Hp Hs) as Hs'.
    rewrite <- (Z2Nat.id j) by lia.
    rewrite (wf_chain_of t m _ p l), (wf_chain_of t' m' _ p l); try done.
    by rewrite Hoth.
  - rewrite !chain_of_out_of_range; [done..|by rewrite Hlen].
Qed.

(** Overwriting a value leaves every chain as it is. *)
Lemma chain_of_set_value t m a e v (j : Z) :
  wf t m → heap m !! a = Some e →
  chain_of t (set_heap (<[a := mkEntry (key e) v (next e)]> (heap m)) m) j = chain_of t m j.
Proof.
  intros Hwf He.
  pose proof (wf_set_value t m a e v Hwf He) as Hwf'.
  destruct (decide (0 ≤ j < Z.of_nat (length (ht t)))) as [Hr|Hr].
  - destruct (lookup_lt_is_Some_2 (ht t) (Z.to_nat j)) as [p Hp]; [lia|].
    destruct (wf_buckets _ _ Hwf _ _ Hp) as (l & Hs & _).
    rewrite <- (Z2Nat.id j) by lia.
    rewrite (wf_chain_of t m _ p l), (wf_chain_of t _ _ p l Hwf'); try done.
    eapply seg_ext; [|done]. intros b _. cbn. rewrite lookup_insert.
    case_decide; [subst; by rewrite He|done].
  - by rewrite !chain_of_out_of_range.
Qed.

(** The chains after [insert], against the chains before; [a] is the
    entry that holds the key afterwards. *)
Lemma insert_chains t m k v :
  wf t m →
  ∃ b t' m' a,
    insert t m k v = Some (b, (t', m')) ∧ wf t' m' ∧ (b = true ↔ ¬ present m k) ∧
    mask t' = mask t ∧
    contents m' = <[a := (k, v)]> (contents m) ∧
    if b then
      heap m !! a = None ∧ heap m' !! a = Some (mkEntry k v None) ∧
      ∃ l, chain_of t m (slot t k) = Some l ∧
           chain_of t' m' (slot t k) = Some (l ++ [a]) ∧
           ∀ j, j ≠ slot t k → chain_of t' m' j = chain_of t m j
    else
      live_key m k a ∧ t' = t ∧ ∀ j, chain_of t' m' j = chain_of t m j.
Proof.
  intros Hwf. destruct (decide (present m k)) as [[a Ha]|Hn].
  - destruct (insert_present t m k v a Hwf Ha) as (e & He & Hk & ->).
    subst k. eexists false, _, _, a. split; [reflexivity|]. split_and!.
    + by apply wf_set_value.
    + split; [done|]. intros []. by exists a.
    + done.
    + by rewrite contents_set_heap_insert.
    + done.
    + done.
    + intros j. by apply chain_of_set_value.
  - pose proof (wf_slot t m k Hwf) as Hr.
    destruct (insert_absent t m k v Hwf Hn)
      as (t' & m' & p & l & p' & -> & Ha' & Hc & _ & _ & _ & Hm & Hlen & Hoth & Hconf
          & Hp & Hs & Hp' & Hs' & Hwf').
    exists true, t', m', (fresh (dom (heap m))).
    split_and!; [done..|apply fresh_not_live|done|].
    exists l. split_and!.
    + rewrite <- (Z2Nat.id (slot t k)) by lia. by apply (wf_chain_of t m _ p).
    + rewrite <- (Z2Nat.id (slot t k)) by lia. by apply (wf_chain_of t' m' _ p').
    + intros j Hj. apply (chain_of_frame t m t' m' (Z.to_nat (slot t k))); try done. lia.
Qed.

(** The chains after [erase], against the chains before. *)
Lemma erase_chains t m k :
  wf t m →
  (¬ present m k ∧ erase t m k = Some (false, (t, m)))
  ∨ (∃ x t' m' l1 l2,
       live_key m k x ∧ erase t m k = Some (true, (t', m')) ∧ wf t' m' ∧
       mask t' = mask t ∧
       contents m' = delete x (contents m) ∧
       chain_of t m (slot t k) = Some (l1 ++ x :: l2) ∧
       chain_of t' m' (slot t k) = Some (l1 ++ l2) ∧
       ∀ j, j ≠ slot t k → chain_of t' m' j = chain_of t m j).
Proof.
  intros Hwf. pose proof (wf_slot t m k Hwf) as Hr.
  destruct (erase_spec t m k Hwf)
    as [?|(x & t' & m' & p & l1 & l2 & p' & Hx & Heq & Hc & _ & _ & _ & Hm & Hlen & Hoth
           & Hconf & Hp & Hs & Hp' & Hs' & Hwf')]; [by left|].
  right. exists x, t', m', l1, l2. split_and!; [done..| | |].
  - rewrite <- (Z2Nat.id (slot t k)) by lia. by apply (wf_chain_of t m _ p).
  - rewrite <- (Z2Nat.id (slot t k)) by lia. by apply (wf_chain_of t' m' _ p').
  - intros j Hj. apply (chain_of_frame t m t' m' (Z.to_nat (slot t k))); try done. lia.
Qed.

(** ** The chains follow the order of insertion *)

Lemma filter_ne_id (k : Z) (ks : list Z) : k ∉ ks → filter (λ k', k' ≠ k) ks = ks.
Proof.
  induction ks as [|k0 ks IH]; [done|]. intros Hk.
  apply not_elem_of_cons in Hk as [Hne Hk].
  rewrite filter_cons_True by done. by rewrite IH.
Qed.

Lemma filter_comm (P Q : Z → Prop) `{!∀ x, Decision (P x), !∀ x, Decision (Q x)}
    (ks : list Z) :
  filter P (filter Q ks) = filter Q (filter P ks).
Proof. rewrite !list_filter_filter. apply list_filter_iff. tauto. Qed.

Lemma Forall2_live_mono m m' l ks :
  Forall2 (λ a k, live_key m k a) l ks →
  (∀ a k, a ∈ l → k ∈ ks → live_key m k a → live_key m' k a) →
  Forall2 (λ a k, live_key m' k a) l ks.
Proof.
  induction 1 as [|a k l ks Ha _ IH]; intros Hmono; constructor.
  - apply Hmono; [apply list_elem_of_here..|done].
  - apply IH. intros b kb Hb Hkb. apply Hmono; by apply list_elem_of_further.
Qed.

Lemma live_key_fun m k k' a : live_key m k a → live_key m k' a → k = k'.
Proof. intros (e & He & <-) (e' & He' & <-). congruence. Qed.

Lemma live_key_after_insert m m' a k v b k0 :
  contents m' = <[a := (k, v)]> (contents m) →
  (b = a → k0 = k) → live_key m k0 b → live_key m' k0 b.
Proof.
  intros Hc Hba (v0 & Hb)%live_key_contents. apply live_key_contents. rewrite Hc.
  destruct (decide (b = a)) as [->|Hne].
  - rewrite lookup_insert_eq, (Hba eq_refl). eauto.
  - rewrite lookup_insert_ne by done. eauto.
Qed.

Lemma live_key_after_delete m m' x b k0 :
  contents m' = delete x (contents m) → b ≠ x → live_key m k0 b → live_key m' k0 b.
Proof.
  intros Hc Hne (v0 & Hb)%live_key_contents. apply live_key_contents. rewrite Hc.
  rewrite lookup_delete_ne by done. eauto.
Qed.

Lemma wf_chain_of_slot t m k :
  wf t m → ∃ l, chain_of t m (slot t k) = Some l ∧ ∀ a, live_key m k a → a ∈ l.
Proof.
  intros Hwf. pose proof (wf_slot t m k Hwf) as Hr.
  destruct (wf_bucket t m k Hwf) as (p & _ & Hp & l & Hs & Hnd & Hl).
  exists l. split.
  - rewrite <- (Z2Nat.id (slot t k)) by lia. by apply (wf_chain_of t m _ p).
  - intros a (e & He & Hk). apply Hl. exists e. split; [done|]. rewrite Hk. lia.
Qed.

Lemma ordered_as_present t m ks k : ordered_as t m ks → present m k ↔ k ∈ ks.
Proof.
  intros (Hwf & _ & Hord).
  destruct (wf_chain_of_slot t m k Hwf) as (l & Hl & Hin).
  specialize (Hord _ _ Hl). split.
  - intros [a Ha]. pose proof (Hin a Ha) as [n Hn]%list_elem_of_lookup.
    destruct (Forall2_lookup_l _ _ _ _ _ Hord Hn) as (k' & Hk' & Ha').
    rewrite (live_key_fun m k k' a Ha Ha').
    apply list_elem_of_lookup_2 in Hk'. by apply list_elem_of_filter in Hk' as [_ ?].
  - intros Hk. assert (k ∈ filter (λ k0, slot t k0 = slot t k) ks) as [n Hn]%list_elem_of_lookup.
    { by apply list_elem_of_filter. }
    destruct (Forall2_lookup_r _ _ _ _ _ Hord Hn) as (a & _ & Ha). by exists a.
Qed.

Lemma filter_slot_mask t t' (i : Z) (ks : list Z) :
  mask t' = mask t → filter (λ k, slot t' k = i) ks = filter (λ k, slot t k = i) ks.
Proof. intros Hm. apply list_filter_iff. intros k. by rewrite (slot_same_mask t t'). Qed.

(** A call keeps the chains in the order of insertion. *)
Lemma ordered_as_step t m ks c t' m' :
  ordered_as t m ks → step c (t, m) = Some (t', m') → ordered_as t' m' (order_step ks c).
Proof.
  intros Hord Hst. pose proof Hord as (Hwf & Hnd & Hch).
  destruct c as [k v|k|k]; cbn [order_step].
  - rewrite step_insert in Hst.
    destruct (insert_chains t m k v Hwf)
      as (b & t1 & m1 & a & Heq & Hwf' & Hb & Hm & Hc & Hchains).
    rewrite Heq in Hst. injection Hst as <- <-. destruct b.
    + (* a new key goes last *)
      assert (k ∉ ks) as Hk.
      { rewrite <- (ordered_as_present t m ks k Hord). by apply Hb. }
      rewrite decide_False by done.
      destruct Hchains as (Ha & Ha' & l & Hl & Hl' & Hoth).
      assert (∀ b k0, live_key m k0 b → live_key m1 k0 b) as Hmono.
      { intros b k0 Hb0. apply (live_key_after_insert m m1 a k v); [done| |done].
        intros ->. destruct Hb0 as (e & He & _). congruence. }
      split_and!; [done| |].
      * apply NoDup_app. split_and!; [done| |apply NoDup_singleton].
        by intros k0 Hk0 ->%list_elem_of_singleton.
      * intros i l1 Hl1. rewrite (filter_slot_mask t t1) by done. rewrite filter_app.
        destruct (decide (i = slot t k)) as [->|Hne].
        -- rewrite Hl' in Hl1. injection Hl1 as <-.
           rewrite (filter_cons_True _ k) by done. rewrite filter_nil.
           apply Forall2_app.
           ++ eapply Forall2_live_mono; [by apply Hch|]. eauto.
           ++ constructor; [|constructor]. by exists (mkEntry k v None).
        -- rewrite Hoth in Hl1 by done.
           rewrite (filter_cons_False _ k) by (intros ?; by apply Hne).
           rewrite filter_nil, app_nil_r.
           eapply Forall2_live_mono; [by apply Hch|]. eauto.
    + (* a key that is there keeps its place *)
      assert (k ∈ ks) as Hk.
      { rewrite <- (ordered_as_present t m ks k Hord).
        destruct (decide (present m k)) as [|Hn]; [done|]. by apply Hb in Hn. }
      rewrite decide_True by done.
      destruct Hchains as (Ha & -> & Hsame).
      split_and!; [done..|]. intros i l1 Hl1. rewrite Hsame in Hl1.
      eapply Forall2_live_mono; [by apply Hch|].
      intros b k0 _ _ Hb0. apply (live_key_after_insert m m1 a k v); [done| |done].
      intros ->. by apply (live_key_fun m k0 k a).
  - rewrite step_erase in Hst.
    destruct (erase_chains t m k Hwf)
      as [[Hn Heq]|(x & t1 & m1 & l1 & l2 & Hx & Heq & Hwf' & Hm & Hc & Hl & Hl' & Hoth)].
    + rewrite Heq in Hst. injection Hst as <- <-.
      rewrite filter_ne_id; [done|]. by rewrite <- (ordered_as_present t m ks k Hord).
    + rewrite Heq in Hst. injection Hst as <- <-.
      assert (∀ b k0, k0 ≠ k → live_key m k0 b → live_key m1 k0 b) as Hmono.
      { intros b k0 Hne Hb0. apply (live_key_after_delete m m1 x); [done| |done].
        intros ->. apply Hne. by apply (live_key_fun m k0 k x). }
      split_and!; [done|by apply NoDup_filter|].
      intros i l Hli. rewrite (filter_slot_mask t t1) by done.
      rewrite filter_comm.
      destruct (decide (i = slot t k)) as [->|Hne].
      * rewrite Hl' in Hli. injection Hli as <-.
        pose proof (Hch _ _ Hl) as HF.
        apply Forall2_app_inv_l in HF as (ks1 & ks2' & HF1 & HF2 & Hks).
        apply Forall2_cons_inv_l in HF2 as (kx & ks2 & Hkx & HF2 & ->).
        assert (kx = k) as -> by by apply (live_key_fun m kx k x).
        assert (NoDup (ks1 ++ k :: ks2)) as Hnd'.
        { rewrite <- Hks. by apply NoDup_filter. }
        apply NoDup_app in Hnd' as (_ & Hdisj & [Hk2 _]%NoDup_cons).
        assert (k ∉ ks1) as Hk1.
        { intros Hin. apply (Hdisj k Hin). apply list_elem_of_here. }
        rewrite Hks, filter_app, filter_cons_False by (by intros []).
        rewrite !filter_ne_id by done.
        apply Forall2_app.
        -- eapply Forall2_live_mono; [done|]. intros b k0 _ Hk0. apply Hmono.
           by intros ->.
        -- eapply Forall2_live_mono; [done|]. intros b k0 _ Hk0. apply Hmono.
           by intros ->.
      * rewrite Hoth in Hli by done. rewrite filter_ne_id.
        -- eapply Forall2_live_mono; [by apply Hch|]. intros b k0 _ Hk0. apply Hmono.
           intros ->. by apply list_elem_of_filter in Hk0 as [? _].
        -- intros [? _]%list_elem_of_filter. done.
  - rewrite step_lookup in Hst. destruct (lookup t m k); [|done]. by injection Hst as <- <-.
Qed.

Lemma ordered_as_run cs : ∀ t m ks t' m',
  ordered_as t m ks → run cs (t, m) = Some (t', m') →
  ordered_as t' m' (foldl order_step ks cs).
Proof.
  induction cs as [|c cs IH]; intros t m ks t' m' Hord; cbn [run foldl].
  - by intros [= <- <-].
  - destruct (step c (t, m)) as [[t1 m1]|] eqn:Hst; [|done]. cbn [mbind option_bind].
    intros Hrun. eapply IH; [|done]. by eapply ordered_as_step.
Qed.

Lemma ordered_as_new t m : wf t m → heap m = ∅ → ordered_as t m [].
Proof.
  intros Hwf Hh. split_and!; [done|apply NoDup_nil_2|].
  intros i l Hl. rewrite filter_nil. destruct l as [|a l]; [constructor|].
  unfold chain_of in Hl. destruct (bucket t i) as [p|]; [|done]. cbn in Hl.
  apply walk_seg in Hl as [_ (e & He & _)]. by rewrite Hh, lookup_empty in He.
Qed.

Lemma ordered_as_chain_keys t m ks (i : Z) :
  ordered_as t m ks → 0 ≤ i < htSize t →
  chain_keys t m i = Some (filter (λ k, slot t k = i) ks).
Proof.
  intros (Hwf & _ & Hch) Hi.
  destruct (lookup_lt_is_Some_2 (ht t) (Z.to_nat i)) as [p Hp].
  { rewrite (wf_len _ _ Hwf). lia. }
  destruct (wf_buckets _ _ Hwf _ _ Hp) as (l & Hs & _).
  pose proof (wf_chain_of t m _ p l Hwf Hp Hs) as Hl. rewrite Z2Nat.id in Hl by lia.
  unfold chain_keys. rewrite Hl. cbn [mbind option_bind]. apply mapM_Some.
  eapply Forall2_impl; [by apply Hch|]. intros a k (e & -> & <-). done.
Qed.

(** C8: in a table reached from a freshly constructed one whose bucket
    array was mapped, the keys along the chain of every bucket are the
    keys that select the bucket in the order of the insertions that made
    them new; [insert] of a key that is absent appends its new entry at
    the tail of the chain of its bucket (the chain was [l], it is
    [l ++ [a]]: with [l] empty the entry is the head) and leaves the other
    chains alone; [insert] of a key that is present leaves every chain,
    node for node, as it was, the key staying in the same entry. *)
Theorem C8_chain_order (size : Z) (cs : list call) (s0 s : state) :
  1 ≤ size < 2 ^ 63 →
  Hashtable_new size empty_memory = Some s0 →
  mapped s0.2 ≠ 0 →
  run cs s0 = Some s →
  (∀ i, 0 ≤ i < htSize s.1 →
        chain_keys s.1 s.2 i = Some (filter (λ k, slot s.1 k = i) (insertion_order cs))) ∧
  ∀ k v, ∃ b s' a,
    insert s.1 s.2 k v = Some (b, s') ∧ (b = true ↔ ¬ present s.2 k) ∧
    if b then
      heap s.2 !! a = None ∧ heap s'.2 !! a = Some (mkEntry k v None) ∧
      ∃ l, chain_of s.1 s.2 (slot s.1 k) = Some l ∧
           chain_of s'.1 s'.2 (slot s.1 k) = Some (l ++ [a]) ∧
           ∀ j, j ≠ slot s.1 k → chain_of s'.1 s'.2 j = chain_of s.1 s.2 j
    else
      lookup s.1 s.2 k = Some (Some a) ∧ lookup s'.1 s'.2 k = Some (Some a) ∧
      s'.1 = s.1 ∧ ∀ j, chain_of s'.1 s'.2 j = chain_of s.1 s.2 j.
Proof.
  intros Hs Hnew Hmap Hrun. destruct s0 as [t0 m0], s as [t m]. cbn [fst snd] in *.
  destruct (Hashtable_new_wf size empty_memory t0 m0 Hs eq_refl Hnew Hmap) as [Hwf0 Hh0].
  pose proof (ordered_as_run cs t0 m0 [] t m (ordered_as_new t0 m0 Hwf0 Hh0) Hrun) as Hord.
  pose proof Hord as (Hwf & _). split.
  - intros i Hi. by apply ordered_as_chain_keys.
  - intros k v.
    destruct (insert_chains t m k v Hwf)
      as (b & t' & m' & a & Heq & Hwf' & Hb & Hm & Hc & Hchains).
    exists b, (t', m'), a. cbn [fst snd]. split_and!; [done..|]. destruct b; [done|].
    destruct Hchains as (Ha & -> & Hsame). split_and!; [|  |done..].
    + by apply lookup_Some.
    + apply lookup_Some; [done|]. apply live_key_contents. exists v.
      by rewrite Hc, lookup_insert_eq.
Qed.

Lemma C8_chain_order_witness :
  let cs := [CInsert 0 42; CInsert 5 1; CInsert 2 43; CErase 5; CInsert 0 7] in
  let s := sample_run 10 cs in
  (∀ i, 0 ≤ i < htSize s.1 →
        chain_keys s.1 s.2 i = Some (filter (λ k, slot s.1 k = i) (insertion_order cs))) ∧
  ∀ k v, ∃ b s' a,
    insert s.1 s.2 k v = Some (b, s') ∧ (b = true ↔ ¬ present s.2 k) ∧
    if b then
      heap s.2 !! a = None ∧ heap s'.2 !! a = Some (mkEntry k v None) ∧
      ∃ l, chain_of s.1 s.2 (slot s.1 k) = Some l ∧
           chain_of s'.1 s'.2 (slot s.1 k) = Some (l ++ [a]) ∧
           ∀ j, j ≠ slot s.1 k → chain_of s'.1 s'.2 j = chain_of s.1 s.2 j
    else
      lookup s.1 s.2 k = Some (Some a) ∧ lookup s'.1 s'.2 k = Some (Some a) ∧
      s'.1 = s.1 ∧ ∀ j, chain_of s'.1 s'.2 j = chain_of s.1 s.2 j.
Proof.
  cbv zeta.
  apply (C8_chain_order 10 [CInsert 0 42; CInsert 5 1; CInsert 2 43; CErase 5; CInsert 0 7]
                        (sample_new 10)).
  - lia.
  - vm_compute. reflexivity.
  - vm_compute. discriminate.
  - vm_compute. reflexivity.
Defined.

Example chain_order_sample :
  let s := sample_run 10 [CInsert 0 42; CInsert 5 1; CInsert 2 43; CErase 5; CInsert 0 7] in
  insertion_order [CInsert 0 42; CInsert 5 1; CInsert 2 43; CErase 5; CInsert 0 7] = [0; 2] ∧
  chain_keys s.1 s.2 2 = Some [0; 2] ∧ chain_of s.1 s.2 2 = Some [1%positive; 3%positive].
Proof. vm_compute. done. Qed.

(** ** The destructor *)

(** The inner loop releases the nodes of a chain, each once, in chain
    order. *)
Lemma free_chain_seg : ∀ l p fuel m,
  seg (heap m) p l None → NoDup l → (length l ≤ fuel)%nat →
  ∃ m', free_chain fuel p m = Some m' ∧
        (∀ b, heap m' !! b = if decide (b ∈ l) then None else heap m !! b) ∧
        freed m' = reverse l ++ freed m ∧ mapped m' = mapped m.
Proof.
  induction l as [|a l IH]; intros p fuel m Hs Hnd Hf.
  - cbn in Hs. subst p. exists m. split_and!; [by destruct fuel| |done..].
    intros b. rewrite decide_False; [done|apply not_elem_of_nil].
  - destruct Hs as [-> (e & He & Hs)]. apply NoDup_cons in Hnd as [Ha Hnd].
    destruct fuel as [|fuel]; [cbn in Hf; lia|]. cbn [free_chain].
    rewrite He. cbn [mbind option_bind]. rewrite (delete_entry_live m a e He).
    cbn [mbind option_bind].
    destruct (IH (next e) fuel (mkMemory (delete a (heap m)) (a :: freed m) (mapped m)))
      as (m' & Hfree & Hheap & Hfr & Hmp).
    { cbn. eapply seg_ext; [|done]. intros b Hb. rewrite lookup_delete_ne; [done|].
      by intros <-. }
    { done. }
    { cbn in Hf. lia. }
    exists m'. split_and!; [done| | |done].
    + intros b. rewrite Hheap. cbn. rewrite lookup_delete.
      destruct (decide (b ∈ l)) as [Hb|Hb].
      * rewrite decide_True; [done|by apply list_elem_of_further].
      * case_decide as Hab.
        -- subst b. rewrite decide_True; [done|apply list_elem_of_here].
        -- rewrite decide_False; [done|]. intros [?|?]%elem_of_cons; done.
    + rewrite Hfr. cbn [freed]. by rewrite reverse_cons, <- (assoc_L (++)).
Qed.

(** The outer loop, started at bucket [i] when the entries of the
    buckets below [i] are gone, releases every live entry, each once. *)
Lemma free_buckets_spec t : ∀ (n i : nat) m,
  (i + n)%nat = length (ht t) → Z.of_nat (length (ht t)) < two64 →
  (∀ j p, (i ≤ j)%nat → ht t !! j = Some p → bucket_ok t (heap m) j p) →
  (∀ b e, heap m !! b = Some e →
          Z.of_nat i ≤ slot t (key e) < Z.of_nat (length (ht t))) →
  ∃ m' fl, free_buckets n t (Z.of_nat i) m = Some m' ∧ heap m' = ∅ ∧
           mapped m' = mapped m ∧ freed m' = fl ++ freed m ∧
           NoDup fl ∧ ∀ a, a ∈ fl ↔ is_Some (heap m !! a).
Proof.
  induction n as [|n IH]; intros i m Hin Hlen Hok Hge.
  - exists m, []. split_and!; [done| |done|done|apply NoDup_nil_2|].
    + apply map_empty. intros b. destruct (heap m !! b) as [e|] eqn:He; [|done].
      apply Hge in He. lia.
    + intros a. split; [by intros ?%elem_of_nil|]. intros [e He]. apply Hge in He. lia.
  - cbn [free_buckets].
    destruct (lookup_lt_is_Some_2 (ht t) i) as [p Hp]; [lia|].
    unfold bucket. rewrite decide_True by lia. rewrite Nat2Z.id, Hp.
    cbn [mbind option_bind].
    destruct (Hok i p (le_n i) Hp) as (l & Hs & Hnd & Hl).
    destruct (free_chain_seg l p (size (heap m)) m Hs Hnd) as (m1 & -> & Hheap & Hfr & Hmp).
    { by eapply bucket_ok_length. }
    cbn [mbind option_bind].
    replace (wrap (Z.of_nat i + 1)) with (Z.of_nat (S i)).
    2:{ unfold wrap. rewrite Z.mod_small; lia. }
    assert (∀ b e, heap m1 !! b = Some e → (b ∉ l) ∧ heap m !! b = Some e) as Hsub.
    { intros b e. rewrite Hheap. by case_decide. }
    destruct (IH (S i) m1) as (m' & fl & Hfree & Hempty & Hmp' & Hfr' & Hndf & Hfl).
    { lia. }
    { done. }
    { intros j q Hj Hq. destruct (Hok j q) as (lj & Hsj & Hndj & Hlj); [lia|done|].
      assert (∀ a, a ∈ lj → heap m1 !! a = heap m !! a) as Hsame.
      { intros a (e & He & Hsl)%Hlj. rewrite Hheap, decide_False; [done|].
        intros (e' & He' & Hsl')%Hl. rewrite He in He'. injection He' as <-. lia. }
      exists lj. split_and!; [|done|].
      - eapply seg_ext; [|done]. intros a Ha. by rewrite Hsame.
      - intros a. split.
        + intros Ha. rewrite (Hsame a Ha). by apply Hlj.
        + intros (e & [_ He]%Hsub & Hsl). apply Hlj. eauto. }
    { intros b e He. apply Hsub in He as [Hb He]. pose proof (Hge b e He) as Hr.
      destruct (decide (slot t (key e) = Z.of_nat i)) as [Heq|Hne]; [|lia].
      destruct Hb. apply Hl. eauto. }
    exists m', (fl ++ reverse l). split_and!; [done..|congruence| | |].
    + by rewrite Hfr', Hfr, (assoc_L (++)).
    + apply NoDup_app. split_and!; [done| |by rewrite reverse_Permutation].
      intros a [e He]%Hfl Hr. rewrite elem_of_reverse in Hr.
      apply Hsub in He as [Ha _]. by apply Ha.
    + intros a. rewrite elem_of_app, elem_of_reverse, Hfl, Hheap.
      destruct (decide (a ∈ l)) as [Ha|Ha].
      * split; [|by right]. intros _. by eapply seg_live.
      * split; [by intros [?|?]|by left].
Qed.

(** The destructor on a table that satisfies the invariant: every live
    entry is released exactly once and none is left; of the mapping,
    only the pages holding the first [htSize] bytes are unmapped. *)
Lemma destroy_spec t m :
  wf t m →
  ∃ m' fl, destroy t m = Some m' ∧ heap m' = ∅ ∧
           freed m' = fl ++ freed m ∧ NoDup fl ∧
           (∀ a, a ∈ fl ↔ is_Some (heap m !! a)) ∧
           length fl = size (heap m) ∧
           mapped m' = Z.max 0 (mapped m - page_round (htSize t)).
Proof.
  intros Hwf. pose proof (wf_len _ _ Hwf) as Hlen.
  destruct (wf_size _ _ Hwf) as (n & Hn & Hsz).
  pose proof (pow2_lt_two64 n Hn) as Hp. rewrite <- Hsz in Hp.
  destruct (free_buckets_spec t (Z.to_nat (htSize t)) 0 m)
    as (m1 & fl & Hfree & Hempty & Hmp & Hfr & Hnd & Hfl).
  { by rewrite Hlen. }
  { rewrite Hlen. lia. }
  { intros j p _ Hj. by apply (wf_buckets _ _ Hwf). }
  { intros b e He. rewrite Hlen, Z2Nat.id by lia.
    pose proof (slot_range t (key e) (wf_size _ _ Hwf) (wf_mask _ _ Hwf)). lia. }
  unfold destroy. change 0 with (Z.of_nat 0). rewrite Hfree. cbn [mbind option_bind].
  eexists _, fl. split; [done|]. cbn. split_and!; [done..| |by rewrite Hmp].
  rewrite <- (size_dom (D := gset loc)). unfold size, set_size. cbn.
  apply Permutation_length, NoDup_Permutation; [done|apply NoDup_elements|].
  intros a. by rewrite Hfl, elem_of_elements, elem_of_dom.
Qed.

Lemma page_round_bounds (n : Z) : n ≤ page_round n < n + PAGE_SIZE.
Proof.
  unfold page_round, PAGE_SIZE.
  pose proof (Z.div_mod (n + 4096 - 1) 4096).
  pose proof (Z.mod_pos_bound (n + 4096 - 1) 4096). lia.
Qed.

Lemma page_round_one_page (n : Z) : 0 < n ≤ PAGE_SIZE → page_round n = PAGE_SIZE.
Proof.
  unfold page_round, PAGE_SIZE. intros Hn.
  replace ((n + 4096 - 1) / 4096) with 1; [lia|].
  apply Z.div_unique with (r := n - 1); lia.
Qed.

(** The calls leave the mapping alone: it is the one the constructor
    made, of [sizeof(uint64_t) * htSize] bytes. *)
Lemma reachable_mapped s : reachable s → mapped s.2 = page_round (8 * htSize s.1).
Proof.
  induction 1 as [size [t m] Hs Hnew Hmap|[t m] k v b [t' m'] Hr IH Hins
                 |[t m] k b [t' m'] Hr IH Her]; cbn [fst snd] in *.
  - rewrite Hashtable_new_eq in Hnew by done. injection Hnew as <- <-.
    cbn [mapped htSize] in *. unfold allocZeros in *. case_decide as Hw; [done|].
    f_equal. unfold wrap in *.
    pose proof (log2_bound size Hs) as Hl.
    destruct (decide (Z.log2 size + 1 < 61)) as [Hsmall|Hbig].
    + apply Z.mod_small. split; [pose proof (Z.pow_pos_nonneg 2 (Z.log2 size + 1)); lia|].
      unfold two64. change (2 ^ 64) with (8 * 2 ^ 61).
      apply Z.mul_lt_mono_pos_l; [lia|]. apply Z.pow_lt_mono_r; lia.
    + destruct Hw.
      replace (Z.log2 size + 1) with (61 + (Z.log2 size + 1 - 61)) by lia.
      rewrite Z.pow_add_r by lia.
      replace (8 * (2 ^ 61 * 2 ^ (Z.log2 size + 1 - 61)))
        with (2 ^ (Z.log2 size + 1 - 61) * two64) by (unfold two64; lia).
      apply Z.mod_mul. unfold two64. lia.
  - apply reachable_wf in Hr as Hwf. cbn [fst snd] in Hwf.
    destruct (decide (present m k)) as [[a Ha]|Hn].
    + destruct (insert_present t m k v a Hwf Ha) as (e & _ & _ & Heq).
      rewrite Heq in Hins. by injection Hins as _ <- <-.
    + destruct (insert_absent t m k v Hwf Hn)
        as (t1 & m1 & ? & ? & ? & Heq & _ & _ & _ & Hmp & Hsz & _).
      rewrite Heq in Hins. injection Hins as _ <- <-. by rewrite Hmp, Hsz.
  - apply reachable_wf in Hr as Hwf. cbn [fst snd] in Hwf.
    destruct (erase_spec t m k Hwf)
      as [[_ Heq]|(x & t1 & m1 & ? & ? & ? & ? & _ & Heq & _ & _ & Hmp & Hsz & _)].
    + rewrite Heq in Her. by injection Her as _ <- <-.
    + rewrite Heq in Her. injection Her as _ <- <-. by rewrite Hmp, Hsz.
Qed.

(** The destructor on a reachable table: every call of [delete] hits a
    live entry, the live entries are released exactly once each and
    none is left; the bucket array is unmapped whole only when it has at
    most 512 buckets, otherwise pages of it stay mapped. *)
Lemma destroy_reachable s :
  reachable s →
  ∃ m' fl, destroy s.1 s.2 = Some m' ∧ heap m' = ∅ ∧
           freed m' = fl ++ freed s.2 ∧ NoDup fl ∧
           (∀ a, a ∈ fl ↔ is_Some (heap s.2 !! a)) ∧
           length fl = size (heap s.2) ∧
           mapped m' = page_round (8 * htSize s.1) - page_round (htSize s.1) ∧
           (mapped m' = 0 ↔ htSize s.1 ≤ 512).
Proof.
  intros Hr. pose proof (reachable_wf s Hr) as Hwf.
  pose proof (reachable_mapped s Hr) as Hmap.
  destruct (destroy_spec s.1 s.2 Hwf) as (m' & fl & Hd & Hh & Hfr & Hnd & Hfl & Hlen & Hmp).
  destruct (wf_size _ _ Hwf) as (n & Hn & Hsz).
  assert (0 < htSize s.1) as Hpos.
  { rewrite Hsz. apply Z.pow_pos_nonneg; lia. }
  pose proof (page_round_bounds (htSize s.1)) as Hb1.
  pose proof (page_round_bounds (8 * htSize s.1)) as Hb8.
  unfold PAGE_SIZE in *.
  assert (htSize s.1 ≤ 512 ∨ 1024 ≤ htSize s.1) as Hcases.
  { rewrite Hsz. destruct (decide (n ≤ 9)) as [Hle|Hgt].
    - left. change 512 with (2 ^ 9). apply Z.pow_le_mono_r; lia.
    - right. change 1024 with (2 ^ 10). apply Z.pow_le_mono_r; lia. }
  exists m', fl. split_and!; [done..| |].
  - rewrite Hmp, Hmap. destruct Hcases as [Hsmall|Hbig].
    + rewrite !page_round_one_page by (unfold PAGE_SIZE; lia). lia.
    + lia.
  - rewrite Hmp, Hmap. destruct Hcases as [Hsmall|Hbig].
    + rewrite !page_round_one_page by (unfold PAGE_SIZE; lia). lia.
    + lia.
Qed.

(** C2 fails on the code: [Hashtable h(837)], as the tests build it, has
    1024 buckets in a mapping of 8192 bytes; after three insertions the
    destructor releases the three entries, each once, and leaves none
    live, but [munmap(ht, htSize)] unmaps 1024 bytes, that is one page:
    4096 bytes of the bucket array stay mapped. *)
Theorem C2_destructor_leaves_pages_mapped :
  let s := sample_run 837 [CInsert 0 42; CInsert 1 42; CInsert 2 42] in
  htSize s.1 = 1024 ∧ size (heap s.2) = 3%nat ∧ mapped s.2 = 8192 ∧
  ∃ m', destroy s.1 s.2 = Some m' ∧
        heap m' = ∅ ∧ length (freed m') = 3%nat ∧ NoDup (freed m') ∧
        mapped m' = 4096.
Proof.
  cbv zeta. split_and!; [vm_compute; reflexivity..|].
  destruct (destroy_reachable (sample_run 837 [CInsert 0 42; CInsert 1 42; CInsert 2 42]))
    as (m' & fl & Hd & Hh & Hfr & Hnd & _ & Hlen & Hmp & _).
  { apply sample_run_reachable; [lia|vm_compute; discriminate]. }
  exists m'. split_and!; [done..| | |].
  - rewrite Hfr, length_app, Hlen. vm_compute. reflexivity.
  - rewrite Hfr. replace (freed _) with (@nil loc) by (vm_compute; reflexivity).
    by rewrite app_nil_r.
  - rewrite Hmp. vm_compute. reflexivity.
Qed.

(** ** The table as a finite map *)

Lemma model_keys_NoDup m : unique_keys m → NoDup ((map_to_list (contents m)).*2.*1).
Proof.
  intros Hu. rewrite <- list_fmap_compose. apply NoDup_fmap_2_strong; [|apply NoDup_map_to_list].
  intros [a [k v]] [b [k' v']] Ha Hb Hk. cbn in Hk. subst k'.
  apply elem_of_map_to_list in Ha, Hb.
  assert (a = b) as -> by (by eapply (proj1 (unique_keys_contents m) Hu)).
  congruence.
Qed.

(** The model binds [k] to [v] exactly when a live entry holds both. *)
Lemma model_Some m k v :
  unique_keys m → model m !! k = Some v ↔ ∃ a, contents m !! a = Some (k, v).
Proof.
  intros Hu. unfold model. rewrite <- elem_of_list_to_map by by apply model_keys_NoDup.
  rewrite list_elem_of_fmap. split.
  - intros ([a kv] & -> & Ha). exists a. by apply elem_of_map_to_list.
  - intros (a & Ha). exists (a, (k, v)). split; [done|]. by apply elem_of_map_to_list.
Qed.

Lemma model_None m k : unique_keys m → model m !! k = None ↔ ¬ present m k.
Proof.
  intros Hu. rewrite eq_None_not_Some. split.
  - intros Hn [a (v & Ha)%live_key_contents]. apply Hn. exists v. apply model_Some; eauto.
  - intros Hn [v (a & Ha)%model_Some]; [|done]. apply Hn. exists a.
    apply live_key_contents. eauto.
Qed.

(** As many keys as live entries. *)
Lemma model_size m : unique_keys m → size (model m) = size (heap m).
Proof.
  intros Hu. unfold model. rewrite map_size_list_to_map by by apply model_keys_NoDup.
  by rewrite length_fmap, length_map_to_list, size_contents.
Qed.

Lemma model_after_insert m m' a k v :
  unique_keys m → unique_keys m' →
  contents m' = <[a := (k, v)]> (contents m) →
  (∀ b, live_key m k b → b = a) →
  (∀ k', k' ≠ k → ¬ live_key m k' a) →
  model m' = <[k := v]> (model m).
Proof.
  intros Hu Hu' Hc Hk Ha. apply map_eq. intros k0. apply option_eq. intros v0.
  rewrite (model_Some m' k0 v0 Hu'), Hc. rewrite lookup_insert_Some.
  rewrite (model_Some m k0 v0 Hu). split.
  - intros (b & Hb). apply lookup_insert_Some in Hb as [[-> [= <- <-]]|[Hne Hb]]; [by left|].
    right. split; [|eauto]. intros ->. apply Hne. symmetry. apply Hk.
    apply live_key_contents. eauto.
  - intros [[<- <-]|[Hne (b & Hb)]].
    + exists a. by rewrite lookup_insert_eq.
    + exists b. rewrite lookup_insert_ne; [done|]. intros <-.
      apply (Ha k0); [done|]. apply live_key_contents. eauto.
Qed.

Lemma model_after_delete m m' x k :
  unique_keys m → unique_keys m' →
  contents m' = delete x (contents m) → live_key m k x →
  model m' = delete k (model m).
Proof.
  intros Hu Hu' Hc Hx. apply map_eq. intros k0. apply option_eq. intros v0.
  rewrite (model_Some m' k0 v0 Hu'), Hc. rewrite lookup_delete_Some.
  rewrite (model_Some m k0 v0 Hu). split.
  - intros (b & [Hne Hb]%lookup_delete_Some). split; [|eauto]. intros <-.
    apply Hne. apply (live_key_unique m k); [done|done|]. apply live_key_contents. eauto.
  - intros [Hne (b & Hb)]. exists b. rewrite lookup_delete_ne; [done|]. intros <-.
    apply Hne. apply (live_key_fun m k k0 x); [done|]. apply live_key_contents. eauto.
Qed.

(** [lookup] reads the model. *)
Lemma lookup_model t m k : wf t m → lookup_value t m k = Some (model m !! k).
Proof.
  intros Hwf. pose proof (wf_keys _ _ Hwf) as Hu.
  destruct (model m !! k) as [v|] eqn:Hm.
  - apply lookup_value_Some; [done|]. by apply model_Some.
  - apply lookup_value_None; [done|]. by apply model_None.
Qed.

(** [insert] is insertion into the model; it returns true exactly when
    the key was not bound. *)
Lemma insert_model t m k v :
  wf t m →
  ∃ t' m', insert t m k v = Some (bool_decide (model m !! k = None), (t', m')) ∧
           wf t' m' ∧ model m' = <[k := v]> (model m) ∧
           freed m' = freed m ∧ mapped m' = mapped m ∧ htSize t' = htSize t.
Proof.
  intros Hwf. pose proof (wf_keys _ _ Hwf) as Hu.
  destruct (decide (present m k)) as [[a Ha]|Hn].
  - destruct (insert_present t m k v a Hwf Ha) as (e & He & Hk & ->).
    pose proof (wf_set_value t m a e v Hwf He) as Hwf'. rewrite Hk in Hwf'.
    eexists _, _. rewrite bool_decide_eq_false_2.
    2:{ rewrite model_None by done. intros []. by exists a. }
    split_and!; [done..| |done|done|done].
    apply (model_after_insert _ _ a); [done|apply Hwf'| | |].
    + by rewrite contents_set_heap_insert.
    + intros b Hb. by apply (live_key_unique m k).
    + intros k' Hne Hk'. apply Hne. by apply (live_key_fun m k' k a).
  - destruct (insert_absent t m k v Hwf Hn)
      as (t' & m' & p & l & p' & -> & _ & Hc & Hfr & Hmp & Hsz & _ & _ & _ & _ & _ & _ & _ & _ & Hwf').
    exists t', m'. rewrite bool_decide_eq_true_2 by by apply model_None.
    split_and!; [done..| |done|done|done].
    apply (model_after_insert _ _ (fresh (dom (heap m)))); [done|apply Hwf'|done| |].
    + intros b Hb. destruct Hn. by exists b.
    + intros k' _ (e & He & _). by rewrite fresh_not_live in He.
Qed.

(** [erase] is deletion from the model; it returns true exactly when
    the key was bound, and then one entry has been released. *)
Lemma erase_model t m k :
  wf t m →
  ∃ t' m', erase t m k = Some (bool_decide (is_Some (model m !! k)), (t', m')) ∧
           wf t' m' ∧ model m' = delete k (model m) ∧
           length (freed m') = match model m !! k with
                               | Some _ => S (length (freed m))
                               | None => length (freed m)
                               end ∧
           mapped m' = mapped m ∧ htSize t' = htSize t.
Proof.
  intros Hwf. pose proof (wf_keys _ _ Hwf) as Hu.
  destruct (erase_spec t m k Hwf)
    as [[Hn ->]|(x & t' & m' & p & l1 & l2 & p' & Hx & -> & Hc & Hfr & Hmp & Hsz & _ & _ & _
                 & _ & _ & _ & _ & _ & Hwf')].
  - apply (model_None m k Hu) in Hn as Hm. rewrite Hm.
    exists t, m. rewrite bool_decide_eq_false_2 by (by intros [? ?]).
    split_and!; [done..| |done|done|done]. by rewrite delete_id.
  - assert (is_Some (model m !! k)) as [v Hv].
    { destruct (model m !! k) as [v|] eqn:Hm; [by exists v|].
      apply (model_None m k Hu) in Hm. destruct Hm. by exists x. }
    exists t', m'. rewrite bool_decide_eq_true_2 by eauto. rewrite Hv.
    split_and!; [done..| | |done|done].
    + apply (model_after_delete m m' x); [done|apply Hwf'|done|done].
    + by rewrite Hfr.
Qed.

(** For requested sizes below [2^60] the byte count of the bucket array
    fits 64 bits and the array is mapped. *)
Lemma Hashtable_new_small (s : Z) (m : Memory) :
  1 ≤ s < 2 ^ 60 →
  ∃ t m', Hashtable_new s m = Some (t, m') ∧ mapped m' ≠ 0 ∧
          mapped m' = page_round (8 * htSize t) ∧
          heap m' = heap m ∧ freed m' = freed m.
Proof.
  intros Hs. assert (1 ≤ s < 2 ^ 63) as Hs' by lia.
  rewrite Hashtable_new_eq by done. eexists _, _. split; [done|]. cbn.
  assert (0 ≤ Z.log2 s < 60) as Hl.
  { split; [apply Z.log2_nonneg|]. apply Z.log2_lt_pow2; lia. }
  assert (0 < 2 ^ (Z.log2 s + 1) ≤ 2 ^ 60) as Hc.
  { split; [apply Z.pow_pos_nonneg; lia|]. apply Z.pow_le_mono_r; lia. }
  assert (wrap (8 * 2 ^ (Z.log2 s + 1)) = 8 * 2 ^ (Z.log2 s + 1)) as ->.
  { unfold wrap, two64. apply Z.mod_small. lia. }
  unfold allocZeros. rewrite decide_False by lia.
  pose proof (page_round_bounds (8 * 2 ^ (Z.log2 s + 1))). split_and!; [lia|done..].
Qed.

(** Any calls on a table that satisfies the invariant run without fault
    and leave the map obtained by replaying them on the model. *)
Lemma run_model cs : ∀ t m,
  wf t m →
  ∃ t' m', run cs (t, m) = Some (t', m') ∧ wf t' m' ∧
           model m' = foldl model_step (model m) cs.
Proof.
  induction cs as [|c cs IH]; intros t m Hwf; cbn [run foldl].
  - by exists t, m.
  - assert (∃ t1 m1, step c (t, m) = Some (t1, m1) ∧ wf t1 m1 ∧
                     model m1 = model_step (model m) c) as (t1 & m1 & -> & Hwf1 & Hm1).
    { destruct c as [k v|k|k]; cbn [model_step].
      - rewrite step_insert.
        destruct (insert_model t m k v Hwf) as (t1 & m1 & -> & ? & ? & _). by exists t1, m1.
      - rewrite step_erase.
        destruct (erase_model t m k Hwf) as (t1 & m1 & -> & ? & ? & _). by exists t1, m1.
      - rewrite step_lookup. destruct (lookup_total t m k Hwf) as (r & -> & _).
        by exists t, m. }
    cbn [mbind option_bind]. destruct (IH t1 m1 Hwf1) as (t' & m' & -> & Hwf' & Hm').
    exists t', m'. by rewrite Hm', Hm1.
Qed.

Lemma model_empty m : heap m = ∅ → model m = ∅.
Proof. intros Hh. unfold model, contents. by rewrite Hh, fmap_empty, map_to_list_empty. Qed.

(** X1 [lookup]: on a reachable table [lookup(k)] returns an entry
    holding the value the model binds to [k], and [nullptr] when the
    model binds nothing to [k]. *)
Theorem lookup_refines_map (s : state) (k : Z) :
  reachable s → lookup_value s.1 s.2 k = Some (model s.2 !! k).
Proof. intros Hr. apply lookup_model. by apply reachable_wf. Qed.

Lemma lookup_refines_map_witness :
  lookup_value (sample_run 10 [CInsert 0 42; CInsert 2 43]).1
               (sample_run 10 [CInsert 0 42; CInsert 2 43]).2 2
  = Some (model (sample_run 10 [CInsert 0 42; CInsert 2 43]).2 !! 2).
Proof.
  apply (lookup_refines_map (sample_run 10 [CInsert 0 42; CInsert 2 43]) 2).
  apply sample_run_reachable; [lia|vm_compute; discriminate].
Defined.

(** X2 [insert]: on a reachable table [insert(k, v)] returns, binds
    [k] to [v] in the model and leaves the other bindings alone; its
    result is true exactly when [k] was not bound; nothing is released
    and the capacity stays. *)
Theorem insert_refines_map (s : state) (k v : Z) :
  reachable s →
  ∃ s', insert s.1 s.2 k v = Some (bool_decide (model s.2 !! k = None), s') ∧
        reachable s' ∧ model s'.2 = <[k := v]> (model s.2) ∧
        freed s'.2 = freed s.2 ∧ htSize s'.1 = htSize s.1.
Proof.
  intros Hr. destruct s as [t m]. pose proof (reachable_wf _ Hr) as Hwf. cbn [fst snd] in *.
  destruct (insert_model t m k v Hwf) as (t' & m' & Hins & _ & Hm & Hfr & _ & Hsz).
  exists (t', m'). split_and!; [done| |done..]. by eapply (reach_insert (t, m)).
Qed.

Lemma insert_refines_map_witness :
  let s := sample_run 10 [CInsert 0 42; CInsert 2 43] in
  ∃ s', insert s.1 s.2 5 7 = Some (bool_decide (model s.2 !! 5 = None), s') ∧
        reachable s' ∧ model s'.2 = <[5 := 7]> (model s.2) ∧
        freed s'.2 = freed s.2 ∧ htSize s'.1 = htSize s.1.
Proof.
  cbv zeta. apply (insert_refines_map (sample_run 10 [CInsert 0 42; CInsert 2 43]) 5 7).
  apply sample_run_reachable; [lia|vm_compute; discriminate].
Defined.

(** X3 [erase]: on a reachable table [erase(k)] returns, removes the
    binding of [k] from the model and leaves the other bindings alone;
    its result is true exactly when [k] was bound, and exactly then one
    more entry has been released. *)
Theorem erase_refines_map (s : state) (k : Z) :
  reachable s →
  ∃ s', erase s.1 s.2 k = Some (bool_decide (is_Some (model s.2 !! k)), s') ∧
        reachable s' ∧ model s'.2 = delete k (model s.2) ∧
        length (freed s'.2) = match model s.2 !! k with
                              | Some _ => S (length (freed s.2))
                              | None => length (freed s.2)
                              end ∧
        htSize s'.1 = htSize s.1.
Proof.
  intros Hr. destruct s as [t m]. pose proof (reachable_wf _ Hr) as Hwf. cbn [fst snd] in *.
  destruct (erase_model t m k Hwf) as (t' & m' & Her & _ & Hm & Hfr & _ & Hsz).
  exists (t', m'). split_and!; [done| |done..]. by eapply (reach_erase (t, m)).
Qed.

Lemma erase_refines_map_witness :
  let s := sample_run 10 [CInsert 0 42; CInsert 2 43] in
  ∃ s', erase s.1 s.2 0 = Some (bool_decide (is_Some (model s.2 !! 0)), s') ∧
        reachable s' ∧ model s'.2 = delete 0 (model s.2) ∧
        length (freed s'.2) = match model s.2 !! 0 with
                              | Some _ => S (length (freed s.2))
                              | None => length (freed s.2)
                              end ∧
        htSize s'.1 = htSize s.1.
Proof.
  cbv zeta. apply (erase_refines_map (sample_run 10 [CInsert 0 42; CInsert 2 43]) 0).
  apply sample_run_reachable; [lia|vm_compute; discriminate].
Defined.

(** X4 [Hashtable, insert, erase, lookup]: on a table constructed
    with [1 <= n < 2^63] whose bucket array was mapped, any sequence of
    calls runs without fault; the table then stands for the finite map
    obtained by replaying the calls, from the empty map, as insertions
    and deletions, and holds exactly one live entry per key of that
    map. *)
Theorem calls_refine_map (n : Z) (cs : list call) (s0 : state) :
  1 ≤ n < 2 ^ 63 →
  Hashtable_new n empty_memory = Some s0 →
  mapped s0.2 ≠ 0 →
  ∃ s, run cs s0 = Some s ∧
       model s.2 = foldl model_step ∅ cs ∧
       size (heap s.2) = size (foldl model_step ∅ cs).
Proof.
  intros Hn Hnew Hmap. destruct s0 as [t0 m0]. cbn [fst snd] in *.
  destruct (Hashtable_new_wf n empty_memory t0 m0) as [Hwf0 Hh0]; [done..|].
  destruct (run_model cs t0 m0 Hwf0) as (t & m & Hrun & Hwf & Hm).
  rewrite (model_empty m0 Hh0) in Hm.
  exists (t, m). split_and!; [done..|].
  cbn [snd]. rewrite <- Hm. symmetry. apply model_size, Hwf.
Qed.

Lemma calls_refine_map_witness :
  ∃ s, run [CInsert 0 42; CInsert 2 43; CErase 0; CInsert 2 1] (sample_new 10) = Some s ∧
       model s.2 = foldl model_step ∅ [CInsert 0 42; CInsert 2 43; CErase 0; CInsert 2 1] ∧
       size (heap s.2)
       = size (foldl model_step ∅ [CInsert 0 42; CInsert 2 43; CErase 0; CInsert 2 1]).
Proof.
  apply (calls_refine_map 10 [CInsert 0 42; CInsert 2 43; CErase 0; CInsert 2 1]
                          (sample_new 10)).
  - lia.
  - vm_compute. reflexivity.
  - vm_compute. discriminate.
Defined.

(** ** hashKey *)

Lemma wrap_range (x : Z) : 0 ≤ wrap x < two64.
Proof. unfold wrap, two64. apply Z.mod_pos_bound. lia. Qed.

Lemma high_bits_zero (x n : Z) : 0 ≤ x < two64 → 64 ≤ n → Z.testbit x n = false.
Proof.
  intros Hx Hn. destruct (decide (x = 0)) as [->|Hne]; [apply Z.testbit_0_l|].
  apply Z.bits_above_log2; [lia|]. assert (Z.log2 x < 64); [|lia].
  apply Z.log2_lt_pow2; unfold two64 in Hx; lia.
Qed.

Lemma range_of_bits (x : Z) :
  0 ≤ x → (∀ n, 64 ≤ n → Z.testbit x n = false) → 0 ≤ x < two64.
Proof.
  intros Hx Hbits. split; [done|]. destruct (decide (x = 0)) as [->|Hne]; [done|].
  unfold two64. apply Z.log2_lt_pow2; [lia|].
  destruct (Z_lt_le_dec (Z.log2 x) 64) as [|Hge]; [done|].
  pose proof (Hbits (Z.log2 x) Hge) as Hb. rewrite Z.bit_log2 in Hb; [done|lia].
Qed.

Lemma lxor_range (a b : Z) : 0 ≤ a < two64 → 0 ≤ b < two64 → 0 ≤ Z.lxor a b < two64.
Proof.
  intros Ha Hb. apply range_of_bits.
  - apply Z.lxor_nonneg. lia.
  - intros n Hn. by rewrite Z.lxor_spec, !high_bits_zero.
Qed.

Lemma shiftr_range (a n : Z) : 0 ≤ a < two64 → 0 ≤ n → 0 ≤ Z.shiftr a n < two64.
Proof.
  intros Ha Hn. apply range_of_bits.
  - apply Z.shiftr_nonneg. lia.
  - intros i Hi. rewrite Z.shiftr_spec by lia. apply high_bits_zero; [done|lia].
Qed.

(** [x ^= x >> 47] undoes itself on 64-bit values. *)
Lemma xorshift_involutive (x : Z) :
  0 ≤ x < two64 →
  Z.lxor (Z.lxor x (Z.shiftr x 47)) (Z.shiftr (Z.lxor x (Z.shiftr x 47)) 47) = x.
Proof.
  intros Hx. apply Z.bits_inj'. intros n Hn.
  rewrite !Z.lxor_spec, !Z.shiftr_spec, !Z.lxor_spec, !Z.shiftr_spec by lia.
  rewrite (high_bits_zero x (n + 47 + 47)) by (done || lia).
  by destruct (Z.testbit x n), (Z.testbit x (n + 47)).
Qed.

Lemma xorshift_inj (x y : Z) :
  0 ≤ x < two64 → 0 ≤ y < two64 →
  Z.lxor x (Z.shiftr x 47) = Z.lxor y (Z.shiftr y 47) → x = y.
Proof.
  intros Hx Hy Heq. rewrite <- (xorshift_involutive x Hx), <- (xorshift_involutive y Hy).
  by rewrite Heq.
Qed.

(** [x *= m] is undone by multiplying with the inverse of [m]. *)
Lemma mul_m_inverse (x : Z) :
  0 ≤ x < two64 → wrap (wrap (x * 0xc6a4a7935bd1e995) * murmur_m_inv) = x.
Proof.
  intros Hx. unfold wrap. rewrite Z.mul_mod_idemp_l by (unfold two64; lia).
  rewrite <- Z.mul_assoc, <- Z.mul_mod_idemp_r by (unfold two64; lia).
  replace ((0xc6a4a7935bd1e995 * murmur_m_inv) mod two64) with 1 by (vm_compute; reflexivity).
  rewrite Z.mul_1_r. by apply Z.mod_small.
Qed.

Lemma mul_m_inj (x y : Z) :
  0 ≤ x < two64 → 0 ≤ y < two64 →
  wrap (x * 0xc6a4a7935bd1e995) = wrap (y * 0xc6a4a7935bd1e995) → x = y.
Proof.
  intros Hx Hy Heq. rewrite <- (mul_m_inverse x Hx), <- (mul_m_inverse y Hy).
  by rewrite Heq.
Qed.

Lemma lxor_inj_l (c a b : Z) : Z.lxor c a = Z.lxor c b → a = b.
Proof.
  intros Heq. rewrite <- (Z.lxor_0_l a), <- (Z.lxor_0_l b), <- (Z.lxor_nilpotent c).
  by rewrite !Z.lxor_assoc, Heq.
Qed.

(** X5 [hashKey]: the hash of any key is a 64-bit value, and two
    different 64-bit keys never have the same hash (every step of the
    mixing is invertible), so two keys meet in a bucket only through the
    masking. *)
Theorem hashKey_injective (k1 k2 : Z) :
  0 ≤ k1 < 2 ^ 64 → 0 ≤ k2 < 2 ^ 64 →
  0 ≤ hashKey k1 < 2 ^ 64 ∧ (hashKey k1 = hashKey k2 → k1 = k2).
Proof.
  intros H1 H2. unfold hashKey. cbv zeta.
  change (2 ^ 64) with two64 in *.
  pose proof wrap_range as Hw.
  pose proof (λ a b, lxor_range a (Z.shiftr a b)) as Hxs.
  split.
  - apply lxor_range; [apply Hw|]. apply shiftr_range; [apply Hw|lia].
  - intros Heq.
    apply xorshift_inj in Heq; [|apply Hw..].
    apply mul_m_inj in Heq.
    2,3: apply lxor_range; [apply Hw|apply shiftr_range; [apply Hw|lia]].
    apply xorshift_inj in Heq; [|apply Hw..].
    apply mul_m_inj in Heq.
    2,3: apply lxor_range; [apply lxor_range; [done|apply Hw]|apply Hw].
    apply lxor_inj_l in Heq.
    apply mul_m_inj in Heq.
    2,3: apply lxor_range; [apply Hw|apply shiftr_range; [apply Hw|lia]].
    apply xorshift_inj in Heq; [|apply Hw..].
    by apply mul_m_inj in Heq.
Qed.

Lemma hashKey_injective_witness :
  0 ≤ hashKey 7 < 2 ^ 64 ∧ (hashKey 7 = hashKey 7 → 7 = 7).
Proof. apply (hashKey_injective 7 7); lia. Defined.

(** ** Edges of the constructor *)

(** X6 [Hashtable::Hashtable]: for a 64-bit [size] the constructor is
    defined exactly when [1 <= size < 2^63] ([__builtin_clzl(0)] and a
    shift by 64 are undefined); the capacity it computes is then above
    [size] and at most twice [size], so at least 2, and the heap is not
    touched. *)
Theorem constructor_domain_and_bounds (s : Z) (m : Memory) :
  0 ≤ s < 2 ^ 64 →
  (is_Some (Hashtable_new s m) ↔ 1 ≤ s < 2 ^ 63) ∧
  ∀ t m', Hashtable_new s m = Some (t, m') →
          s < htSize t ≤ 2 * s ∧ 2 ≤ htSize t ∧ mask t = htSize t - 1 ∧
          heap m' = heap m ∧ freed m' = freed m.
Proof.
  intros Hs.
  assert (1 ≤ s < 2 ^ 63 →
          ∃ t m', Hashtable_new s m = Some (t, m') ∧
                  s < htSize t ≤ 2 * s ∧ 2 ≤ htSize t ∧ mask t = htSize t - 1 ∧
                  heap m' = heap m ∧ freed m' = freed m) as Hin.
  { intros Hs'. rewrite Hashtable_new_eq by done. eexists _, _. split; [done|]. cbn.
    destruct (Z.log2_spec s) as [Hlo Hhi]; [lia|].
    pose proof (Z.log2_nonneg s) as Hl0.
    replace (Z.succ (Z.log2 s)) with (Z.log2 s + 1) in Hhi by lia.
    rewrite Z.pow_add_r in * by lia. change (2 ^ 1) with 2 in *.
    split_and!; [lia..|done|done|done]. }
  assert (is_Some (Hashtable_new s m) → 1 ≤ s < 2 ^ 63) as Hout.
  { intros [r Hr]. destruct (decide (s = 0)) as [->|Hne]; [done|].
    destruct (decide (s < 2 ^ 63)) as [|Hge]; [lia|]. exfalso.
    unfold Hashtable_new in Hr. rewrite clzl_log2 in Hr by (unfold two64; lia).
    cbn [mbind option_bind] in Hr.
    assert (Z.log2 s = 63) as Hl by (apply Z.log2_unique; lia).
    rewrite Hl in Hr. by vm_compute in Hr. }
  split.
  - split; [done|]. intros Hs'. destruct (Hin Hs') as (t & m' & -> & _). done.
  - intros t m' Hnew. destruct Hin as (t1 & m1 & Heq & H); [by apply Hout; rewrite Hnew|].
    rewrite Heq in Hnew. by injection Hnew as <- <-.
Qed.

Lemma constructor_domain_and_bounds_witness :
  (is_Some (Hashtable_new 837 empty_memory) ↔ 1 ≤ 837 < 2 ^ 63) ∧
  ∀ t m', Hashtable_new 837 empty_memory = Some (t, m') →
          837 < htSize t ≤ 2 * 837 ∧ 2 ≤ htSize t ∧ mask t = htSize t - 1 ∧
          heap m' = heap empty_memory ∧ freed m' = freed empty_memory.
Proof. apply (constructor_domain_and_bounds 837 empty_memory). lia. Defined.

(** X7 [Hashtable::Hashtable, allocZeros]: the byte count
    [sizeof(uint64_t) * htSize] is computed in 64 bits. For
    [2^60 <= s < 2^63] it wraps to 0: nothing is mapped, and every call
    on the table is undefined. A table whose bucket array was mapped
    therefore has [s < 2^60]; its mapping covers the [8 * htSize] bytes
    of [htSize] null cells, and every sequence of calls on it runs
    without fault. *)
Theorem constructor_mapping (s : Z) :
  1 ≤ s < 2 ^ 63 →
  ∃ t m, Hashtable_new s empty_memory = Some (t, m) ∧
         (2 ^ 60 ≤ s →
          mapped m = 0 ∧ ht t = [] ∧ ∀ c, step c (t, m) = None) ∧
         (mapped m ≠ 0 →
          s < 2 ^ 60 ∧ mapped m = page_round (8 * htSize t) ∧
          ht t = replicate (Z.to_nat (htSize t)) None ∧
          ∀ cs, is_Some (run cs (t, m))).
Proof.
  intros Hs. pose proof (Hashtable_new_eq s empty_memory Hs) as Hnew. cbn zeta in Hnew.
  eexists _, _. split; [exact Hnew|].
  set (t := mkHashtable _ _ _) in *. set (m := mkMemory _ _ _) in *.
  split.
  - intros Hbig. destruct (Hashtable_new_unmapped s empty_memory t m Hs Hbig Hnew) as [? Hnil].
    split_and!; [done..|]. intros c. by apply step_unmapped.
  - intros Hmap.
    assert (s < 2 ^ 60) as Hsmall.
    { destruct (decide (s < 2 ^ 60)) as [|Hbig]; [done|]. destruct Hmap.
      apply (Hashtable_new_unmapped s empty_memory t m); [done|lia|done]. }
    destruct (Hashtable_new_small s empty_memory) as (t1 & m1 & Heq & _ & Hpr & _); [lia|].
    rewrite Hnew in Heq. injection Heq as <- <-.
    split_and!; [done..| |].
    + by apply (Hashtable_new_mapped s empty_memory t m).
    + intros cs. destruct (Hashtable_new_wf s empty_memory t m) as [Hwf _]; [done..|].
      destruct (run_wf cs t m Hwf) as (t' & m' & -> & _). done.
Qed.

Lemma constructor_mapping_witness :
  (∃ t m, Hashtable_new (2 ^ 60) empty_memory = Some (t, m) ∧
          mapped m = 0 ∧ ht t = [] ∧ ∀ c, step c (t, m) = None) ∧
  (∃ t m, Hashtable_new 10 empty_memory = Some (t, m) ∧ mapped m ≠ 0 ∧
          10 < 2 ^ 60 ∧ mapped m = page_round (8 * htSize t) ∧
          ht t = replicate (Z.to_nat (htSize t)) None ∧
          ∀ cs, is_Some (run cs (t, m))).
Proof.
  split.
  - destruct (constructor_mapping (2 ^ 60)) as (t & m & Hnew & Hbig & _); [lia|].
    exists t, m. split; [done|]. apply Hbig. lia.
  - destruct (constructor_mapping 10) as (t & m & Hnew & _ & Hsmall); [lia|].
    assert (mapped m ≠ 0) as Hmap.
    { assert (Some (t, m) = Some (sample_new 10)) as [= -> ->].
      { rewrite <- Hnew. vm_compute. reflexivity. }
      vm_compute. discriminate. }
    exists t, m. split; [done|]. split; [done|]. by apply Hsmall.
Defined.

(** ** Chains and ownership *)

(** The chain [chain_of] computes is the one the invariant describes. *)
Lemma chain_of_inv t m (i : Z) l :
  wf t m → chain_of t m i = Some l →
  0 ≤ i < htSize t ∧ NoDup l ∧
  ∀ a, a ∈ l ↔ ∃ e, heap m !! a = Some e ∧ slot t (key e) = i.
Proof.
  intros Hwf Hl.
  assert (0 ≤ i < Z.of_nat (length (ht t))) as Hi.
  { destruct (decide (0 ≤ i < Z.of_nat (length (ht t)))) as [|Hn]; [done|].
    by rewrite chain_of_out_of_range in Hl. }
  rewrite (wf_len _ _ Hwf) in Hi. rewrite Z2Nat.id in Hi by (destruct (wf_size _ _ Hwf); lia).
  unfold chain_of, bucket in Hl. rewrite decide_True in Hl by lia.
  destruct (ht t !! Z.to_nat i) as [p|] eqn:Hp; [|done]. cbn in Hl. apply walk_seg in Hl.
  destruct (wf_buckets _ _ Hwf _ _ Hp) as (l' & Hs & Hnd & Hin).
  rewrite (seg_det _ _ _ _ Hl Hs). split_and!; [lia..|done|].
  intros a. rewrite Hin. by rewrite Z2Nat.id by lia.
Qed.

(** X8 [lookup, erase, Hashtable::Hashtable]: a table constructed
    with [1 <= n < 2^63] whose bucket array was mapped starts empty:
    every cell of the zero-filled bucket array is a null head, so every
    chain is empty, [lookup] returns [nullptr] and [erase] returns false
    and changes nothing, whatever the key. *)
Theorem new_table_is_empty (n : Z) (t : Hashtable) (m : Memory) :
  1 ≤ n < 2 ^ 63 →
  Hashtable_new n empty_memory = Some (t, m) →
  mapped m ≠ 0 →
  heap m = ∅ ∧ model m = ∅ ∧
  (∀ i, 0 ≤ i < htSize t → bucket t i = Some None ∧ chain_of t m i = Some []) ∧
  ∀ k, lookup t m k = Some None ∧ erase t m k = Some (false, (t, m)).
Proof.
  intros Hn Hnew Hmap.
  destruct (Hashtable_new_wf n empty_memory t m) as [Hwf Hh0]; [done..|].
  pose proof (Hashtable_new_mapped n empty_memory t m Hn Hnew Hmap) as Hht.
  split_and!; [done|by apply model_empty| |].
  - intros i Hi.
    assert (ht t !! Z.to_nat i = Some None) as Hc.
    { rewrite Hht. apply lookup_replicate_2. lia. }
    split.
    + unfold bucket. by rewrite decide_True by lia.
    + rewrite <- (Z2Nat.id i) by lia. by apply (wf_chain_of t m _ None).
  - intros k.
    assert (¬ present m k) as Hn'.
    { intros (a & e & He & _). by rewrite Hh0, lookup_empty in He. }
    split; [by apply lookup_None|].
    destruct (erase_spec t m k Hwf) as [[_ ?]|(x & ? & ? & ? & ? & ? & ? & Hx & _)]; [done|].
    destruct Hn'. by exists x.
Qed.

Lemma new_table_is_empty_witness :
  heap (sample_new 10).2 = ∅ ∧ model (sample_new 10).2 = ∅ ∧
  (∀ i, 0 ≤ i < htSize (sample_new 10).1 →
        bucket (sample_new 10).1 i = Some None ∧
        chain_of (sample_new 10).1 (sample_new 10).2 i = Some []) ∧
  ∀ k, lookup (sample_new 10).1 (sample_new 10).2 k = Some None ∧
       erase (sample_new 10).1 (sample_new 10).2 k
       = Some (false, ((sample_new 10).1, (sample_new 10).2)).
Proof.
  apply (new_table_is_empty 10 (sample_new 10).1 (sample_new 10).2).
  - lia.
  - vm_compute. reflexivity.
  - vm_compute. discriminate.
Defined.

(** X9 [insert, erase]: in a reachable table every live entry sits
    on the chain of the bucket its key selects, every chain is free of
    repetitions and made of live entries whose keys select that bucket
    (so no entry is on two chains, and none is lost), and the walk of
    every bucket ends. *)
Theorem entries_partitioned_by_bucket (s : state) :
  reachable s →
  (∀ i, 0 ≤ i < htSize s.1 → is_Some (chain_of s.1 s.2 i)) ∧
  (∀ a e, heap s.2 !! a = Some e →
          ∃ l, chain_of s.1 s.2 (slot s.1 (key e)) = Some l ∧ a ∈ l) ∧
  (∀ i l, chain_of s.1 s.2 i = Some l →
          NoDup l ∧ ∀ a, a ∈ l → ∃ e, heap s.2 !! a = Some e ∧ slot s.1 (key e) = i).
Proof.
  intros Hr. destruct s as [t m]. pose proof (reachable_wf _ Hr) as Hwf. cbn [fst snd] in *.
  split_and!.
  - intros i Hi. destruct (lookup_lt_is_Some_2 (ht t) (Z.to_nat i)) as [p Hp].
    { rewrite (wf_len _ _ Hwf). lia. }
    destruct (wf_buckets _ _ Hwf _ _ Hp) as (l & Hs & _).
    exists l. rewrite <- (Z2Nat.id i) by lia. by apply (wf_chain_of t m _ p).
  - intros a e He. destruct (wf_chain_of_slot t m (key e) Hwf) as (l & Hl & Hin).
    exists l. split; [done|]. apply Hin. by exists e.
  - intros i l Hl. destruct (chain_of_inv t m i l Hwf Hl) as (_ & Hnd & Hin).
    split; [done|]. intros a Ha. by apply Hin.
Qed.

Lemma entries_partitioned_by_bucket_witness :
  let s := sample_run 10 [CInsert 0 42; CInsert 2 43; CInsert 5 1] in
  (∀ i, 0 ≤ i < htSize s.1 → is_Some (chain_of s.1 s.2 i)) ∧
  (∀ a e, heap s.2 !! a = Some e →
          ∃ l, chain_of s.1 s.2 (slot s.1 (key e)) = Some l ∧ a ∈ l) ∧
  (∀ i l, chain_of s.1 s.2 i = Some l →
          NoDup l ∧ ∀ a, a ∈ l → ∃ e, heap s.2 !! a = Some e ∧ slot s.1 (key e) = i).
Proof.
  cbv zeta.
  apply (entries_partitioned_by_bucket (sample_run 10 [CInsert 0 42; CInsert 2 43; CInsert 5 1])).
  apply sample_run_reachable; [lia|vm_compute; discriminate].
Defined.

(** X10 [erase]: erasing a key that is present unlinks the one entry
    [x] that holds it and deletes it: the chain [l1 ++ x :: l2] of the
    key's bucket becomes [l1 ++ l2], the entries before and after keeping
    their order; the other chains, and the key and value of every other
    entry, are as before. *)
Theorem erase_unlinks_entry (s : state) (k : Z) :
  reachable s → present s.2 k →
  ∃ x s' l1 l2,
    erase s.1 s.2 k = Some (true, s') ∧ live_key s.2 k x ∧
    chain_of s.1 s.2 (slot s.1 k) = Some (l1 ++ x :: l2) ∧
    chain_of s'.1 s'.2 (slot s.1 k) = Some (l1 ++ l2) ∧
    (∀ j, j ≠ slot s.1 k → chain_of s'.1 s'.2 j = chain_of s.1 s.2 j) ∧
    contents s'.2 = delete x (contents s.2) ∧
    freed s'.2 = x :: freed s.2.
Proof.
  intros Hr Hp. destruct s as [t m]. pose proof (reachable_wf _ Hr) as Hwf.
  cbn [fst snd] in *.
  destruct (erase_chains t m k Hwf)
    as [[Hn _]|(x & t' & m' & l1 & l2 & Hx & Heq & Hwf' & Hm & Hc & Hl & Hl' & Hoth)]; [done|].
  destruct (erase_contents t m k Hwf) as [[Hn _]|(x' & t2 & m2 & Hx' & Heq' & _ & _ & Hfr)];
    [done|].
  rewrite Heq in Heq'. injection Heq' as <- <-.
  assert (x' = x) as -> by (by apply (live_key_unique m k); [apply Hwf|..]).
  exists x, (t', m'), l1, l2. by split_and!.
Qed.

Lemma erase_unlinks_entry_witness :
  let s := sample_run 10 [CInsert 0 42; CInsert 2 43; CInsert 5 1] in
  ∃ x s' l1 l2,
    erase s.1 s.2 0 = Some (true, s') ∧ live_key s.2 0 x ∧
    chain_of s.1 s.2 (slot s.1 0) = Some (l1 ++ x :: l2) ∧
    chain_of s'.1 s'.2 (slot s.1 0) = Some (l1 ++ l2) ∧
    (∀ j, j ≠ slot s.1 0 → chain_of s'.1 s'.2 j = chain_of s.1 s.2 j) ∧
    contents s'.2 = delete x (contents s.2) ∧
    freed s'.2 = x :: freed s.2.
Proof.
  cbv zeta.
  apply (erase_unlinks_entry (sample_run 10 [CInsert 0 42; CInsert 2 43; CInsert 5 1]) 0).
  - apply sample_run_reachable; [lia|vm_compute; discriminate].
  - exists 1%positive, (mkEntry 0 42 (Some 2%positive)). split; vm_compute; reflexivity.
Defined.

(** X11 [Hashtable::~Hashtable]: on a reachable table the destructor
    returns; it deletes every live entry exactly once and no pointer
    that is not live, so no entry is left; of the bucket array it unmaps
    the pages that hold the first [htSize] bytes, which is the whole
    mapping exactly when the table has at most 512 buckets. *)
Theorem destructor_releases_entries (s : state) :
  reachable s →
  ∃ m' fl, destroy s.1 s.2 = Some m' ∧ heap m' = ∅ ∧
           freed m' = fl ++ freed s.2 ∧ NoDup fl ∧
           (∀ a, a ∈ fl ↔ is_Some (heap s.2 !! a)) ∧
           length fl = size (heap s.2) ∧
           mapped m' = page_round (8 * htSize s.1) - page_round (htSize s.1) ∧
           (mapped m' = 0 ↔ htSize s.1 ≤ 512).
Proof. apply destroy_reachable. Qed.

Lemma destructor_releases_entries_witness :
  let s := sample_run 10 [CInsert 0 42; CInsert 2 43; CInsert 5 1] in
  ∃ m' fl, destroy s.1 s.2 = Some m' ∧ heap m' = ∅ ∧
           freed m' = fl ++ freed s.2 ∧ NoDup fl ∧
           (∀ a, a ∈ fl ↔ is_Some (heap s.2 !! a)) ∧
           length fl = size (heap s.2) ∧
           mapped m' = page_round (8 * htSize s.1) - page_round (htSize s.1) ∧
           (mapped m' = 0 ↔ htSize s.1 ≤ 512).
Proof.
  cbv zeta.
  apply (destructor_releases_entries (sample_run 10 [CInsert 0 42; CInsert 2 43; CInsert 5 1])).
  apply sample_run_reachable; [lia|vm_compute; discriminate].
Defined.

(** ** The test driver *)

(** A loop whose body keeps [I] and passes its [Ensure]s runs to its end
    and passes. *)
Lemma for_loop_inv (I : Z → state → Prop) body (bound step : Z) :
  0 < step → bound + step ≤ two64 →
  (∀ i s, 0 ≤ i < bound → I i s → ∃ s', body i s = Some (true, s') ∧ I (i + step) s') →
  ∀ fuel i s,
    0 ≤ i < bound + step → (Z.to_nat (bound - i) ≤ fuel)%nat → I i s →
    ∃ j s', for_loop fuel i bound step body s = Some (true, s') ∧ I j s' ∧
            bound ≤ j < bound + step.
Proof.
  intros Hstep Hmax Hbody. induction fuel as [|fuel IH]; intros i s Hi Hf HI.
  - exists i, s. cbn. rewrite decide_False by lia. split_and!; [done..|lia|lia].
  - cbn [for_loop]. destruct (decide (i < bound)) as [Hlt|Hge].
    + destruct (Hbody i s) as (s' & -> & HI'); [lia|done|].
      replace (wrap (i + step)) with (i + step).
      2:{ unfold wrap. rewrite Z.mod_small; lia. }
      apply IH; [lia|lia|done].
    + exists i, s. split_and!; [done..|lia|lia].
Qed.

Lemma stands_for_ext h0 c f g s :
  stands_for h0 c f s → (∀ k, f k = g k) → stands_for h0 c g s.
Proof.
  intros (Hwf & Hh & Hm & Hc) Hfg. split_and!; [done..| |done].
  intros k. by rewrite Hm.
Qed.

(** [Ensure(h.insert(i, v) == expect)] passes when [expect] tells
    whether the key is new. *)
Lemma ensure_insert_ok h0 c f (expect : bool) v i s :
  stands_for h0 c f s → expect = bool_decide (f i = None) →
  ∃ s', ensure_insert expect v i s = Some (true, s') ∧
        stands_for h0 (if expect then S c else c)
                   (λ k, if decide (k = i) then Some (v i) else f k) s'.
Proof.
  intros (Hwf & Hh & Hm & Hc) ->. destruct s as [t m]. cbn [fst snd] in *.
  destruct (insert_model t m i (v i) Hwf) as (t' & m' & Hins & Hwf' & Hm' & Hfr & _ & Hsz).
  rewrite Hm in Hins.
  exists (t', m'). unfold ensure_insert, Ensure. cbn [fst snd].
  rewrite Hins. cbn [mbind option_bind]. rewrite bool_decide_eq_true_2 by done.
  split; [done|]. split_and!; cbn [fst snd]; [done|congruence| |].
  - intros k. rewrite Hm', lookup_insert. repeat case_decide; congruence.
  - rewrite Hm', Hfr. destruct (f i) as [w|] eqn:Hfi.
    + rewrite bool_decide_eq_false_2 by done.
      rewrite map_size_insert_Some by (rewrite Hm, Hfi; eauto). lia.
    + rewrite bool_decide_eq_true_2 by done.
      rewrite map_size_insert_None by (by rewrite Hm). lia.
Qed.

(** [Ensure(h.erase(i) == expect i)] passes when [expect i] tells
    whether the key is bound. *)
Lemma ensure_erase_ok h0 c f (expect : Z → bool) i s :
  stands_for h0 c f s → expect i = bool_decide (is_Some (f i)) →
  ∃ s', ensure_erase expect i s = Some (true, s') ∧
        stands_for h0 c (λ k, if decide (k = i) then None else f k) s'.
Proof.
  intros (Hwf & Hh & Hm & Hc) He. destruct s as [t m]. cbn [fst snd] in *.
  destruct (erase_model t m i Hwf) as (t' & m' & Her & Hwf' & Hm' & Hfr & _ & Hsz).
  rewrite Hm in Her.
  exists (t', m'). unfold ensure_erase, Ensure. cbn [fst snd].
  rewrite Her. cbn [mbind option_bind]. rewrite He, bool_decide_eq_true_2 by done.
  split; [done|]. split_and!; cbn [fst snd]; [done|congruence| |].
  - intros k. rewrite Hm', lookup_delete. repeat case_decide; congruence.
  - rewrite Hm', Hfr. destruct (model m !! i) as [w|] eqn:Hmi.
    + rewrite map_size_delete_Some by eauto.
      assert (size (model m) ≠ 0%nat); [|lia].
      intros Hz. apply map_size_empty_iff in Hz. by rewrite Hz, lookup_empty in Hmi.
    + by rewrite delete_id.
Qed.

(** The [Ensure]s on [h.lookup(i)] pass when the key is absent where
    it has to be and bound to itself elsewhere. *)
Lemma ensure_lookup_ok h0 c f (absent : Z → bool) i s :
  stands_for h0 c f s →
  f i = (if absent i then None else Some i) →
  ensure_lookup absent i s = Some (true, s).
Proof.
  intros (Hwf & Hh & Hm & Hc) Hf. destruct s as [t m]. cbn [fst snd] in *.
  pose proof (lookup_model t m i Hwf) as Hl. rewrite Hm, Hf in Hl.
  unfold lookup_value in Hl. unfold ensure_lookup. cbn [fst snd].
  destruct (lookup t m i) as [[a|]|]; [| |done]; cbn [mbind option_bind] in *.
  - destruct (heap m !! a) as [e|]; [|done]. cbn [mbind option_bind] in *.
    destruct (absent i); [done|]. injection Hl as Hv. unfold Ensure.
    by rewrite bool_decide_eq_true_2.
  - destruct (absent i); [|done]. unfold Ensure. by rewrite bool_decide_eq_true_2.
Qed.

Ltac mlia := Z.to_euclidean_division_equations; lia.

Ltac pointwise :=
  intros ?; unfold is_mod3 in *;
  repeat (case_decide || case_bool_decide); try done; try congruence;
  try (exfalso; mlia); try (f_equal; mlia).

Lemma stands_for_change h0 c c' f g s :
  stands_for h0 c f s → c = c' → (∀ k, f k = g k) → stands_for h0 c' g s.
Proof. intros H <- Hfg. by eapply stands_for_ext. Qed.

(** A loop of [general_test], with the bindings [F i] and the count
    [C i] before the iteration at [i], as long as [J i]. *)
Lemma loop_stands_for body (J : Z → Prop) (C : Z → nat) (F : Z → Z → option Z)
    h0 (bound step : Z) (fuel : nat) s :
  0 < step → 0 ≤ bound → bound + step ≤ two64 → (Z.to_nat bound ≤ fuel)%nat →
  (∀ i s, 0 ≤ i < bound → J i → stands_for h0 (C i) (F i) s →
          ∃ s', body i s = Some (true, s') ∧ J (i + step) ∧
                stands_for h0 (C (i + step)) (F (i + step)) s') →
  J 0 → stands_for h0 (C 0) (F 0) s →
  ∃ j s', for_loop fuel 0 bound step body s = Some (true, s') ∧
          J j ∧ 0 ≤ j ∧ bound ≤ j < bound + step ∧ stands_for h0 (C j) (F j) s'.
Proof.
  intros Hstep Hb Hmax Hfuel Hbody HJ0 H0.
  destruct (for_loop_inv (λ i s, 0 ≤ i ∧ J i ∧ stands_for h0 (C i) (F i) s)
                         body bound step Hstep Hmax) with (fuel := fuel) (i := 0) (s := s)
    as (j & s' & Hloop & (Hj0 & HJ & Hs') & Hj).
  - intros i s1 Hi (Hi0 & HJ & Hs1). destruct (Hbody i s1 Hi HJ Hs1) as (s2 & ? & ? & ?).
    exists s2. split_and!; [done|lia|done|done].
  - lia.
  - lia.
  - split_and!; try done; lia.
  - exists j, s'. split_and!; try done; lia.
Qed.

(** The block of [general_test] for one size: every [Ensure] passes, no
    call is undefined, and at the end of the block the destructor has
    released what the erasures left. *)
Lemma general_test_size_passes (n : Z) (m : Memory) :
  1 ≤ n < 2 ^ 60 → heap m = ∅ →
  ∃ m', general_test_size n m = Some (true, m') ∧ heap m' = ∅ ∧
        length (freed m') = (length (freed m) + Z.to_nat n)%nat.
Proof.
  intros Hn Hh.
  destruct (Hashtable_new_small n m Hn) as (t0 & m0 & Hnew & Hmap & _ & Hh0 & Hfr0).
  destruct (Hashtable_new_wf n m t0 m0) as [Hwf0 Hh0']; [lia|done..|].
  set (h0 := htSize t0). set (c0 := length (freed m)).
  set (c1 := (c0 + Z.to_nat n)%nat).
  set (half := n / 2).
  assert (0 ≤ half ≤ n) as Hhalf by (unfold half; mlia).
  assert (n + 3 ≤ two64 ∧ half + 3 ≤ two64) as [Hmax Hmaxh] by (unfold two64; lia).
  assert ((Z.to_nat half ≤ Z.to_nat n)%nat) as Hfh by lia.
  set (g0 := λ k : Z, if decide (0 ≤ k < n) then Some k else None).
  set (g1 := λ k : Z, if decide (0 ≤ k < half ∧ k mod 3 = 0) then None else g0 k).
  set (g2 := λ k : Z, if decide (0 ≤ k < half) then None else g0 k).
  (* insert *)
  destruct (loop_stands_for (ensure_insert true (λ _, 42)) (λ _, True)
              (λ i, (c0 + Z.to_nat i)%nat)
              (λ i k, if decide (0 ≤ k < i) then Some 42 else None)
              h0 n 1 (Z.to_nat n) (t0, m0))
    as (j1 & s1 & Hl1 & _ & _ & Hj1 & H1); [lia..| | |done| |].
  { unfold two64 in *. lia. }
  { intros i s Hi _ Hs.
    destruct (ensure_insert_ok _ _ _ true (λ _, 42) i s Hs) as (s' & Hs' & H').
    { rewrite decide_False by lia. done. }
    exists s'. split_and!; [done..|]. eapply stands_for_change; [done|lia|pointwise]. }
  { split_and!; cbn [fst snd]; [done..| |].
    - intros k. rewrite (model_empty m0 Hh0'), lookup_empty. by rewrite decide_False by lia.
    - rewrite (model_empty m0 Hh0'), map_size_empty, Hfr0. unfold c0. lia. }
  assert (j1 = n) as -> by lia.
  (* update *)
  destruct (loop_stands_for (ensure_insert false (λ i, i)) (λ _, True) (λ _, c1)
              (λ i k, if decide (0 ≤ k < i) then Some k
                      else if decide (0 ≤ k < n) then Some 42 else None)
              h0 n 1 (Z.to_nat n) s1)
    as (j2 & s2 & Hl2 & _ & _ & Hj2 & H2); [lia..| | |done| |].
  { unfold two64 in *. lia. }
  { intros i s Hi _ Hs.
    destruct (ensure_insert_ok _ _ _ false (λ i, i) i s Hs) as (s' & Hs' & H').
    { rewrite decide_False, decide_True by lia. done. }
    exists s'. split_and!; [done..|]. eapply stands_for_change; [done|done|pointwise]. }
  { eapply stands_for_change; [done|done|pointwise]. }
  assert (j2 = n) as -> by lia.
  assert (stands_for h0 c1 g0 s2) as H2'.
  { eapply stands_for_change; [done|done|unfold g0; pointwise]. }
  (* lookup *)
  destruct (loop_stands_for (ensure_lookup (λ _, false)) (λ _, True) (λ _, c1) (λ _, g0)
              h0 n 1 (Z.to_nat n) s2)
    as (j3 & s3 & Hl3 & _ & _ & _ & H3); [lia..| | |done|done|].
  { unfold two64 in *. lia. }
  { intros i s Hi _ Hs. exists s. split_and!; [|done..].
    apply (ensure_lookup_ok h0 c1 g0); [done|]. unfold g0. by rewrite decide_True by lia. }
  (* erase some *)
  destruct (loop_stands_for (ensure_erase (λ _, true)) (λ i, i mod 3 = 0) (λ _, c1)
              (λ i k, if decide (0 ≤ k < i ∧ k mod 3 = 0) then None else g0 k)
              h0 half 3 (Z.to_nat n) s3)
    as (j4 & s4 & Hl4 & Hm4 & Hj4' & Hj4 & H4); [lia..| |done| |].
  { intros i s Hi Hm Hs.
    destruct (ensure_erase_ok _ _ _ (λ _, true) i s Hs) as (s' & Hs' & H').
    { rewrite decide_False by lia. unfold g0. rewrite decide_True by lia.
      by rewrite bool_decide_eq_true_2. }
    exists s'. split_and!; [done|mlia|]. eapply stands_for_change; [done|done|pointwise]. }
  { eapply stands_for_change; [done|done|pointwise]. }
  assert (stands_for h0 c1 g1 s4) as H4'.
  { eapply stands_for_change; [done|done|unfold g1; pointwise]. }
  (* erase twice *)
  destruct (loop_stands_for (ensure_erase (λ _, false)) (λ i, i mod 3 = 0) (λ _, c1)
              (λ _, g1) h0 half 3 (Z.to_nat n) s4)
    as (j5 & s5 & Hl5 & _ & _ & _ & H5); [lia..| |done|done|].
  { intros i s Hi Hm Hs.
    destruct (ensure_erase_ok _ _ _ (λ _, false) i s Hs) as (s' & Hs' & H').
    { unfold g1. rewrite decide_True by lia. by rewrite bool_decide_eq_false_2 by by intros [? ?]. }
    exists s'. split_and!; [done|mlia|].
    eapply stands_for_change; [done|done|unfold g1; pointwise]. }
  (* lookup *)
  destruct (loop_stands_for (ensure_lookup is_mod3) (λ _, True) (λ _, c1) (λ _, g1)
              h0 half 1 (Z.to_nat n) s5)
    as (j6 & s6 & Hl6 & _ & _ & _ & H6); [lia..| | |done|done|].
  { unfold two64 in *. lia. }
  { intros i s Hi _ Hs. exists s. split_and!; [|done..].
    apply (ensure_lookup_ok h0 c1 g1); [done|]. unfold g1, g0, is_mod3.
    repeat (case_decide || case_bool_decide); try done; exfalso; lia. }
  (* erase some more *)
  destruct (loop_stands_for (ensure_erase (λ i, negb (is_mod3 i))) (λ _, True) (λ _, c1)
              (λ i k, if decide (0 ≤ k < i) then None else g1 k)
              h0 half 1 (Z.to_nat n) s6)
    as (j7 & s7 & Hl7 & _ & _ & Hj7 & H7); [lia..| | |done| |].
  { unfold two64 in *. lia. }
  { intros i s Hi _ Hs.
    destruct (ensure_erase_ok _ _ _ (λ i, negb (is_mod3 i)) i s Hs) as (s' & Hs' & H').
    { rewrite decide_False by lia. unfold g1, g0, is_mod3.
      repeat (case_decide || case_bool_decide); try done;
        try (exfalso; lia); try (by destruct H as [? ?]); exfalso; eauto. }
    exists s'. split_and!; [done..|]. eapply stands_for_change; [done|done|pointwise]. }
  { eapply stands_for_change; [done|done|pointwise]. }
  assert (j7 = half) as -> by lia.
  assert (stands_for h0 c1 g2 s7) as H7'.
  { eapply stands_for_change; [done|done|unfold g2, g1; pointwise]. }
  (* lookup *)
  destruct (loop_stands_for (ensure_lookup (λ _, true)) (λ _, True) (λ _, c1) (λ _, g2)
              h0 half 1 (Z.to_nat n) s7)
    as (j8 & s8 & Hl8 & _ & _ & _ & H8); [lia..| | |done|done|].
  { unfold two64 in *. lia. }
  { intros i s Hi _ Hs. exists s. split_and!; [|done..].
    apply (ensure_lookup_ok h0 c1 g2); [done|]. unfold g2. by rewrite decide_True by lia. }
  (* the destructor *)
  destruct H8 as (Hwf8 & _ & Hm8 & Hc8).
  destruct (destroy_spec s8.1 s8.2 Hwf8) as (m' & fl & Hd & Hh' & Hfr' & _ & _ & Hlen & _).
  exists m'. split_and!; [|done|].
  - unfold general_test_size. rewrite Hnew. cbn [mbind option_bind]. cbv zeta.
    cbn [foldl]. fold half.
    rewrite Hl1, Hl2, Hl3, Hl4, Hl5, Hl6, Hl7, Hl8, Hd. done.
  - rewrite Hfr', length_app, Hlen, <- (model_size s8.2) by apply Hwf8. lia.
Qed.

(** X12 [general_test, body of the loop over the sizes]: for every
    size [1 <= n < 2^63] for which the bucket array of the table is
    mapped, in a memory with no live entry, the block of [general_test]
    runs to its end: no [Ensure] fails and no call is undefined; when
    the table is destroyed at the end of the block no entry is left
    live, and [n] entries have been released in all. *)
Theorem general_test_block_passes (n : Z) (m : Memory) (s0 : state) :
  1 ≤ n < 2 ^ 63 → heap m = ∅ →
  Hashtable_new n m = Some s0 → mapped s0.2 ≠ 0 →
  ∃ m', general_test_size n m = Some (true, m') ∧ heap m' = ∅ ∧
        length (freed m') = (length (freed m) + Z.to_nat n)%nat.
Proof.
  intros Hn Hh Hnew Hmap. apply general_test_size_passes; [|done].
  destruct (decide (n < 2 ^ 60)) as [|Hbig]; [lia|]. destruct Hmap, s0 as [t0 m0].
  apply (Hashtable_new_unmapped n m t0 m0); [done|lia|done].
Qed.

Lemma general_test_block_passes_witness :
  ∃ m', general_test_size 99 empty_memory = Some (true, m') ∧ heap m' = ∅ ∧
        length (freed m') = (length (freed empty_memory) + Z.to_nat 99)%nat.
Proof.
  apply (general_test_block_passes 99 empty_memory (sample_new 99)).
  - lia.
  - reflexivity.
  - vm_compute. reflexivity.
  - vm_compute. discriminate.
Defined.

(** X13 [general_test, main]: the self-check of the program passes:
    started in a memory with no live entry, [general_test] runs its five
    tables without a failed [Ensure] and without undefined behaviour,
    and leaves no entry live; so [main] returns 0. *)
Theorem self_check_passes :
  main = Some 0 ∧
  ∀ m, heap m = ∅ →
       ∃ m', general_test m = Some (true, m') ∧ heap m' = ∅ ∧
             length (freed m') = (length (freed m) + Z.to_nat 434208)%nat.
Proof.
  assert (∀ m, heap m = ∅ →
               ∃ m', general_test m = Some (true, m') ∧ heap m' = ∅ ∧
                     length (freed m') = (length (freed m) + Z.to_nat 434208)%nat) as Hgt.
  { intros m Hh. unfold general_test. cbn [foldl].
    destruct (general_test_size_passes 10 m) as (m1 & -> & Hh1 & Hf1); [lia|done|].
    destruct (general_test_size_passes 99 m1) as (m2 & -> & Hh2 & Hf2); [lia|done|].
    destruct (general_test_size_passes 837 m2) as (m3 & -> & Hh3 & Hf3); [lia|done|].
    destruct (general_test_size_passes 48329 m3) as (m4 & -> & Hh4 & Hf4); [lia|done|].
    destruct (general_test_size_passes 384933 m4) as (m5 & -> & Hh5 & Hf5); [lia|done|].
    exists m5. split_and!; [done..|]. lia. }
  split; [|done]. unfold main.
  destruct (Hgt empty_memory eq_refl) as (m' & -> & _). done.
Qed.

Lemma self_check_passes_witness :
  ∃ m', general_test empty_memory = Some (true, m') ∧ heap m' = ∅ ∧
        length (freed m') = (length (freed empty_memory) + Z.to_nat 434208)%nat.
Proof. apply (proj2 self_check_passes empty_memory). reflexivity. Defined.

(** X14 [lookup]: on a reachable table [lookup(k)] returns; a pointer
    it returns is a live entry whose key is [k], and the only such
    entry; it returns [nullptr] exactly when no live entry holds [k]. *)
Theorem lookup_returns_the_entry (s : state) (k : Z) :
  reachable s →
  ∃ r, lookup s.1 s.2 k = Some r ∧
       match r with
       | Some a => live_key s.2 k a ∧ ∀ b, live_key s.2 k b → b = a
       | None => ¬ present s.2 k
       end.
Proof.
  intros Hr. destruct s as [t m]. pose proof (reachable_wf _ Hr) as Hwf. cbn [fst snd] in *.
  destruct (lookup_total t m k Hwf) as (r & Hl & Hspec). exists r. split; [done|].
  destruct r as [a|]; [|done]. split; [done|].
  intros b Hb. by apply (live_key_unique m k); [apply Hwf|..].
Qed.

Lemma lookup_returns_the_entry_witness :
  let s := sample_run 10 [CInsert 0 42; CInsert 2 43] in
  ∃ r, lookup s.1 s.2 2 = Some r ∧
       match r with
       | Some a => live_key s.2 2 a ∧ ∀ b, live_key s.2 2 b → b = a
       | None => ¬ present s.2 2
       end.
Proof.
  cbv zeta. apply (lookup_returns_the_entry (sample_run 10 [CInsert 0 42; CInsert 2 43]) 2).
  apply sample_run_reachable; [lia|vm_compute; discriminate].
Defined.
